(** * JWT tokens: segment codec, token construction, signing, request parsing

    A shallow embedding of [token.go], [parser_option.go] and
    [request/request.go], together with the part of Go's [encoding/base64]
    that [EncodeSegment] and [DecodeSegment] call.

    Go strings are byte strings and are modelled by [string]; [[]byte] is
    [list byte]; Go's [uint]/[int] values are [Z] (the values handled here
    never leave 24 bits, the one truncation [byte(v)] is written out).
    A Go result [(v, err)] is a pair whose second component is [None]
    when [err] is nil.  The maps and interface values of a token are
    taken to be non-nil. *)

From Stdlib Require Import ZArith List Bool Lia.
From Stdlib Require Import Strings.String Strings.Ascii Strings.Byte.
From coqutil Require Import Z.bitblast.
From stdpp Require Import base gmap strings pretty.

Import ListNotations.
Local Open Scope string_scope.
Local Open Scope Z_scope.

(** ** Errors

    Go's [error] values.  [CorruptInputError] is [encoding/base64]'s; the
    five kinds of the token package follow; [OtherError] stands for any
    error value produced by code outside the package (a JSON encoder, a
    signing method, a key function, an extractor). *)
Inductive error : Type :=
| CorruptInputError (offset : Z)
| MalformedTokenError
| UnverifiableError
| UnverifiableErrorWrapping (cause : error)
| SignatureInvalidError
| ClaimsInvalidError (violations : list string)
| SignError
| OtherError (msg : string).

(** ** encoding/base64 *)
Module base64.

(** [Encoding]: the 64-character alphabet, the padding character
    ([None] is Go's [NoPadding]) and the strict flag. *)
Record Encoding : Type := {
  encode : string;
  padChar : option ascii;
  strict : bool
}.

Definition encodeURL : string :=
  "ABCDEFGHIJKLMNOPQRSTUVWXYZabcdefghijklmnopqrstuvwxyz0123456789-_".

Definition StdPadding : ascii := "="%char.

(** [NewEncoding(encodeURL)] *)
Definition URLEncoding : Encoding :=
  {| encode := encodeURL; padChar := Some StdPadding; strict := false |}.

(** [enc.WithPadding(padding)] *)
Definition WithPadding (enc : Encoding) (padding : option ascii) : Encoding :=
  {| encode := encode enc; padChar := padding; strict := strict enc |}.

(** [URLEncoding.WithPadding(NoPadding)] *)
Definition RawURLEncoding : Encoding := WithPadding URLEncoding None.

(** [uint(b)] and [byte(v)] *)
Definition Z_of_byte (b : byte) : Z := Z.of_N (Byte.to_N b).

Definition byte_of_Z (v : Z) : byte :=
  match Byte.of_N (Z.to_N (v mod 256)) with
  | Some b => b
  | None => Byte.x00
  end.

(** [enc.encode[i]] *)
Definition encodeAt (enc : Encoding) (i : Z) : ascii :=
  match String.get (Z.to_nat i) (encode enc) with
  | Some c => c
  | None => Ascii.zero
  end.

(** [enc.decodeMap]: every entry starts as 0xff, then
    [decodeMap[encoder[i]] = i] for each position of the alphabet. *)
Fixpoint fillDecodeMap (alphabet : string) (i : Z) (m : ascii -> Z) : ascii -> Z :=
  match alphabet with
  | EmptyString => m
  | String c rest =>
      fillDecodeMap rest (i + 1) (fun x => if Ascii.eqb x c then i else m x)
  end.

Definition decodeMap (enc : Encoding) : ascii -> Z :=
  fillDecodeMap (encode enc) 0 (fun _ => 255).

Definition padString (enc : Encoding) (n : nat) : string :=
  match padChar enc with
  | Some p => string_of_list_ascii (repeat p n)
  | None => EmptyString
  end.

(** [Encode]: three source bytes give four characters; a last block of
    one or two bytes gives two or three characters, followed by padding
    when the encoding has a padding character. *)
Fixpoint EncodeToString (enc : Encoding) (src : list byte) : string :=
  match src with
  | [] => EmptyString
  | b0 :: b1 :: b2 :: rest =>
      let val := Z.lor (Z.lor (Z.shiftl (Z_of_byte b0) 16)
                              (Z.shiftl (Z_of_byte b1) 8)) (Z_of_byte b2) in
      String (encodeAt enc (Z.land (Z.shiftr val 18) 63))
     (String (encodeAt enc (Z.land (Z.shiftr val 12) 63))
     (String (encodeAt enc (Z.land (Z.shiftr val 6) 63))
     (String (encodeAt enc (Z.land val 63))
             (EncodeToString enc rest))))
  | [b0; b1] =>
      let val := Z.lor (Z.shiftl (Z_of_byte b0) 16) (Z.shiftl (Z_of_byte b1) 8) in
      String (encodeAt enc (Z.land (Z.shiftr val 18) 63))
     (String (encodeAt enc (Z.land (Z.shiftr val 12) 63))
     (String (encodeAt enc (Z.land (Z.shiftr val 6) 63))
             (padString enc 1)))
  | [b0] =>
      let val := Z.shiftl (Z_of_byte b0) 16 in
      String (encodeAt enc (Z.land (Z.shiftr val 18) 63))
     (String (encodeAt enc (Z.land (Z.shiftr val 12) 63))
             (padString enc 2))
  end.

Definition isNewline (c : ascii) : bool :=
  Ascii.eqb c "010"%char || Ascii.eqb c "013"%char.

Definition isPad (enc : Encoding) (c : ascii) : bool :=
  match padChar enc with
  | Some p => Ascii.eqb c p
  | None => false
  end.

Definition hasPadding (enc : Encoding) : bool :=
  match padChar enc with Some _ => true | None => false end.

(** [for si < len(src) && (src[si] == '\n' || src[si] == '\r') { si++ }] *)
Fixpoint skipNewlines (src : string) (si : Z) : string * Z :=
  match src with
  | EmptyString => (src, si)
  | String c rest => if isNewline c then skipNewlines rest (si + 1) else (src, si)
  end.

(** How the character loop of [decodeQuantum] ends: with a [return]
    that wrote nothing, or by leaving the loop with [dlen] sextets in
    [dbuf] and possibly a pending trailing-garbage error. *)
Inductive loopExit : Type :=
| Return (si : Z) (rest : string) (err : option error)
| Convert (si : Z) (rest : string) (dbuf : list Z) (dlen : nat) (err : option error).

(** After the padding of a quantum: skip newlines, anything left is
    trailing garbage; then [dlen = j; break]. *)
Definition afterPadding (src : string) (si : Z) (dbuf : list Z) (j : nat) : loopExit :=
  let '(src, si) := skipNewlines src si in
  match src with
  | EmptyString => Convert si src dbuf j None
  | String _ _ => Convert si src dbuf j (Some (CorruptInputError si))
  end.

(** The loop [for j := 0; j < len(dbuf); j++] of [decodeQuantum]; [src]
    is what is left of the input from offset [si], [dbuf] the [j]
    sextets read so far. *)
Fixpoint quantumLoop (enc : Encoding) (src : string) (si : Z) (j : nat) (dbuf : list Z)
  : loopExit :=
  match src with
  | EmptyString =>
      match j with
      | O => Return si src None
      | _ =>
          if Nat.eqb j 1 || hasPadding enc
          then Return si src (Some (CorruptInputError (si - Z.of_nat j)))
          else Convert si src dbuf j None
      end
  | String c rest =>
      let si := si + 1 in
      let out := decodeMap enc c in
      if negb (out =? 255) then
        if Nat.eqb (S j) 4
        then Convert si rest (dbuf ++ [out])%list 4 None
        else quantumLoop enc rest si (S j) (dbuf ++ [out])%list
      else if isNewline c then quantumLoop enc rest si j dbuf
      else if negb (isPad enc c) then Return si rest (Some (CorruptInputError (si - 1)))
      else
        match j with
        | 0%nat | 1%nat => Return si rest (Some (CorruptInputError (si - 1)))
        | 2%nat =>
            let '(rest, si) := skipNewlines rest si in
            match rest with
            | EmptyString => Return si rest (Some (CorruptInputError si))
            | String c2 rest2 =>
                if negb (isPad enc c2)
                then Return si rest (Some (CorruptInputError (si - 1)))
                else afterPadding rest2 (si + 1) dbuf j
            end
        | _ => afterPadding rest si dbuf j
        end
  end.

(** [decodeQuantum]: what is left of the input, the new offset, the
    bytes written and the error.  The strict checks on the bits that
    are dropped only apply to strict encodings. *)
Definition decodeQuantum (enc : Encoding) (src : string) (si : Z)
  : string * Z * list byte * option error :=
  match quantumLoop enc src si 0 [] with
  | Return si rest err => (rest, si, [], err)
  | Convert si rest dbuf dlen err =>
      let val := Z.lor (Z.lor (Z.lor (Z.shiftl (nth 0 dbuf 0) 18)
                                     (Z.shiftl (nth 1 dbuf 0) 12))
                              (Z.shiftl (nth 2 dbuf 0) 6)) (nth 3 dbuf 0) in
      let d2 := byte_of_Z (Z.shiftr val 0) in
      let d1 := byte_of_Z (Z.shiftr val 8) in
      let d0 := byte_of_Z (Z.shiftr val 16) in
      match dlen with
      | 4%nat => (rest, si, [d0; d1; d2], err)
      | 3%nat =>
          if strict enc && negb (Z_of_byte d2 =? 0)
          then (rest, si, [], Some (CorruptInputError (si - 1)))
          else (rest, si, [d0; d1], err)
      | 2%nat =>
          if strict enc && (negb (Z_of_byte d1 =? 0) || negb (Z_of_byte d2 =? 0))
          then (rest, si, [], Some (CorruptInputError (si - 2)))
          else (rest, si, [d0], err)
      | _ => (rest, si, [], err)
      end
  end.

(** The loop [for si < len(src)] of [Decode].  Every quantum consumes at
    least one character, so [fuel = len(src)] iterations are enough
    (see [decodeLoop_fuel_irrelevant]).  The 8- and 4-character fast paths of
    [Decode] compute the same bytes as [decodeQuantum] on characters of
    the alphabet and fall back to it otherwise; they are not modelled
    apart. *)
Fixpoint decodeLoop (enc : Encoding) (fuel : nat) (src : string) (si : Z)
  : list byte * option error :=
  match src with
  | EmptyString => ([], None)
  | String _ _ =>
      match fuel with
      | O => ([], None)
      | S fuel =>
          let '(rest, si, out, err) := decodeQuantum enc src si in
          match err with
          | Some e => (out, Some e)
          | None =>
              let '(out', err') := decodeLoop enc fuel rest si in
              ((out ++ out')%list, err')
          end
      end
  end.

(** [DecodeString]: the bytes decoded so far are returned with the error. *)
Definition DecodeString (enc : Encoding) (s : string) : list byte * option error :=
  decodeLoop enc (String.length s) s 0.

End base64.

(** ** Values, effects and the outside world *)

(** The dynamic values ([interface{}]) a header or a claims map holds. *)
#[warnings="-register-all"]
Inductive value : Type :=
| VNull
| VBool (b : bool)
| VNumber (n : Z)
| VString (s : string)
| VArray (l : list value)
| VObject (fields : list (string * value)).

(** What the package takes from outside: the state of the world that
    callbacks may read and change ([W]: clock, random source, request
    bodies, key stores), the key type parameter [T], the dynamic type
    [any] of the key handed to [Sign], [net/http]'s request type,
    [encoding/json] on a [map[string]interface{}] (the flag of
    [json_Unmarshal] is the decoder's [UseNumber]), and the claims types
    a caller defines ([Custom]) with what [encoding/json] does on them and
    their validation method (reference time, leeway). *)
Class Platform : Type := {
  W : Type;
  T : Type;
  any : Type;
  Request : Type;
  json_Marshal : gmap string value -> list byte * option error;
  json_Unmarshal : bool -> list byte -> gmap string value * option error;
  Custom : Type;
  custom_Marshal : Custom -> list byte * option error;
  custom_Unmarshal : bool -> list byte -> Custom -> Custom * option error;
  custom_Valid : Custom -> Z -> Z -> option error
}.

Section Effects.
Context {S : Type}.

(** A call that may read and change the state [S]. *)
Definition ST (A : Type) : Type := S -> A * S.

Definition ret {A : Type} (a : A) : ST A := fun s => (a, s).

Definition bind {A B : Type} (m : ST A) (k : A -> ST B) : ST B :=
  fun s => let '(a, s') := m s in k a s'.
End Effects.

Arguments ST : clear implicits.

Notation "x <- m ;; k" := (bind m (fun x => k))
  (at level 100, m at next level, right associativity).
Notation "' ( x , y ) <- m ;; k" := (bind m (fun xy => let '(x, y) := xy in k))
  (at level 100, x name, y name, m at next level, right associativity).

(** ** Package jwt: token.go and parser_option.go *)
Module jwt.
Section WithPlatform.
Context {P : Platform}.

(** Calls that act on the world only. *)
Definition Go (A : Type) : Type := ST W A.

(** The [SigningMethod] interface: a value of it is given by its
    methods. *)
Record SigningMethod : Type := {
  Alg : string;
  Sign : string -> any -> Go (string * option error);
  Verify : string -> list byte -> T -> Go (option error)
}.

(** The [Claims] interface.  [MapClaims] is the package's map type;
    [CustomClaims] is any other implementation. *)
Inductive Claims : Type :=
| MapClaims (m : gmap string value)
| CustomClaims (c : Custom).

(** [Claims_] is the field [Claims], whose name the type has taken. *)
Record Token : Type := {
  Raw : string;
  Method : SigningMethod;
  Header : gmap string value;
  Claims_ : Claims;
  Signature : string;
  Valid : bool
}.

Definition Keyfunc : Type := Token -> Go (T * option error).

(** Methods with receiver [*Token]: they act on the token they are
    called on and on the world. *)
Definition TokenM (A : Type) : Type := ST (Token * W) A.

Definition field {A : Type} (f : Token -> A) : TokenM A :=
  fun s => (f (fst s), s).

Definition call {A : Type} (m : Go A) : TokenM A :=
  fun s => let '(a, w) := m (snd s) in (a, (fst s, w)).

(** [json.Marshal] on a [Claims] value. *)
Definition json_Marshal_Claims (c : Claims) : list byte * option error :=
  match c with
  | MapClaims m => json_Marshal m
  | CustomClaims c => custom_Marshal c
  end.

(** [strings.Join(elems, sep)] *)
Fixpoint Join (elems : list string) (sep : string) : string :=
  match elems with
  | [] => EmptyString
  | [e] => e
  | e :: rest => e ++ sep ++ Join rest sep
  end.

(** [strings.Repeat(s, count)] *)
Fixpoint Repeat (s : string) (count : nat) : string :=
  match count with
  | O => EmptyString
  | S n => s ++ Repeat s n
  end.

Definition EncodeSegment (seg : list byte) : string :=
  base64.EncodeToString base64.RawURLEncoding seg.

(** [DecodePaddingAllowed] is the package variable, read at each call. *)
Definition DecodeSegment (DecodePaddingAllowed : bool) (seg : string)
  : list byte * option error :=
  if DecodePaddingAllowed then
    let l := Z.of_nat (String.length seg) mod 4 in
    let seg := if 0 <? l then seg ++ Repeat "=" (Z.to_nat (4 - l)) else seg in
    base64.DecodeString base64.URLEncoding seg
  else
    base64.DecodeString base64.RawURLEncoding seg.

Definition NewWithClaims (method : SigningMethod) (claims : Claims) : Token :=
  {| Raw := EmptyString;
     Method := method;
     Header := <["alg" := VString (Alg method)]> (<["typ" := VString "JWT"]> ∅);
     Claims_ := claims;
     Signature := EmptyString;
     Valid := false |}.

Definition New (method : SigningMethod) : Token :=
  NewWithClaims method (MapClaims ∅).

Definition SigningString : TokenM (string * option error) :=
  hdr <- field Header ;;
  match json_Marshal hdr with
  | (_, Some err) => ret (EmptyString, Some err)
  | (jsonValue, None) =>
      let header := EncodeSegment jsonValue in
      claims <- field Claims_ ;;
      match json_Marshal_Claims claims with
      | (_, Some err) => ret (EmptyString, Some err)
      | (jsonValue, None) =>
          let claim := EncodeSegment jsonValue in
          ret (Join [header; claim] ".", None)
      end
  end.

Definition SignedString (key : any) : TokenM (string * option error) :=
  r <- SigningString ;;
  match r with
  | (_, Some err) => ret (EmptyString, Some err)
  | (sstr, None) =>
      method <- field Method ;;
      r <- call (Sign method sstr key) ;;
      match r with
      | (_, Some err) => ret (EmptyString, Some err)
      | (sig, None) => ret (Join [sstr; sig] ".", None)
      end
  end.

(** *** parser_option.go

    The fields of [Parser] are the ones the options assign.  A slice
    is [None] when it is nil. *)
Record Parser : Type := {
  ValidMethods : option (list string);
  UseJSONNumber : bool;
  SkipClaimsValidation : bool
}.

Definition ParserOption : Type := Parser -> Parser.

Definition WithValidMethods (methods : option (list string)) : ParserOption :=
  fun p => {| ValidMethods := methods;
              UseJSONNumber := UseJSONNumber p;
              SkipClaimsValidation := SkipClaimsValidation p |}.

Definition WithJSONNumber : ParserOption :=
  fun p => {| ValidMethods := ValidMethods p;
              UseJSONNumber := true;
              SkipClaimsValidation := SkipClaimsValidation p |}.

Definition WithoutClaimsValidation : ParserOption :=
  fun p => {| ValidMethods := ValidMethods p;
              UseJSONNumber := UseJSONNumber p;
              SkipClaimsValidation := true |}.

(** *** The parser

    parser.go, claims.go and the signing-method registry are not among
    the sources; the definitions from here to [Parser_Parse] follow the
    specification (sections 4.1, 4.3 and 4.4). *)

(** Modelled from the spec: the process-wide state the parser reads
    (sections 3 and 9): the padding mode, the time source and the
    registry of signing methods, whose declarations apart from
    [DecodePaddingAllowed] and [TimeFunc] are absent from the sources. *)
Record Package : Type := {
  DecodePaddingAllowed : bool;
  TimeFunc : Go Z;
  GetSigningMethod : string -> option SigningMethod
}.

(** Modelled from the spec: [NewParser(options...)] of parser.go, absent
    from the sources; the options are applied in order to a parser
    with nothing configured. *)
Definition NewParser (options : list ParserOption) : Parser :=
  fold_left (fun p option => option p) options
    {| ValidMethods := None; UseJSONNumber := false; SkipClaimsValidation := false |}.

(** [strings.Split(s, sep)] for a one-character separator. *)
Fixpoint Split (s : string) (sep : ascii) : list string :=
  match s with
  | EmptyString => [EmptyString]
  | String c rest =>
      if Ascii.eqb c sep then EmptyString :: Split rest sep
      else match Split rest sep with
           | seg :: segs => String c seg :: segs
           | [] => [String c EmptyString]
           end
  end.

(** Modelled from the spec: the codec's [decode] of section 4.1, absent
    from the sources.  The text must have exactly three dot-separated
    segments, each is base64url-decoded in the current padding mode; the
    result is (header bytes, payload bytes, signature bytes, signing
    input); [None] stands for [MalformedTokenError]. *)
Definition Codec_decode (pkg : Package) (text : string)
  : option (list byte * list byte * list byte * string) :=
  match Split text "."%char with
  | [h; c; s] =>
      match DecodeSegment (DecodePaddingAllowed pkg) h,
            DecodeSegment (DecodePaddingAllowed pkg) c,
            DecodeSegment (DecodePaddingAllowed pkg) s with
      | (hb, None), (cb, None), (sb, None) => Some (hb, cb, sb, Join [h; c] ".")
      | _, _, _ => None
      end
  | _ => None
  end.

Definition numField (m : gmap string value) (k : string) : option Z :=
  match m !! k with
  | Some (VNumber n) => Some n
  | _ => None
  end.

(** Modelled from the spec: the standard rules of section 4.3 on the
    map shape, absent from the sources.  Every violated rule is
    listed; an absent field violates nothing. *)
Definition violations (m : gmap string value) (now leeway : Z) : list string :=
  ((match numField m "exp" with
    | Some exp => if exp <? now - leeway then ["expired"] else []
    | None => []
    end) ++
   (match numField m "nbf" with
    | Some nbf => if now + leeway <? nbf then ["not valid yet"] else []
    | None => []
    end) ++
   (match numField m "iat" with
    | Some iat => if now + leeway <? iat then ["issued in the future"] else []
    | None => []
    end))%list.

(** Modelled from the spec: [Claims.validate(now, leeway)] of section
    4.3, absent from the sources. *)
Definition validate (c : Claims) (now leeway : Z) : option error :=
  match c with
  | MapClaims m =>
      match violations m now leeway with
      | [] => None
      | vs => Some (ClaimsInvalidError vs)
      end
  | CustomClaims c => custom_Valid c now leeway
  end.

(** Modelled from the spec: step 3 of section 4.4, absent from the
    sources: the payload is JSON-decoded into the shape the caller
    supplied, with the strict-number setting. *)
Definition decodeClaims (useNumber : bool) (payload : list byte) (shape : Claims)
  : Claims * option error :=
  match shape with
  | MapClaims _ =>
      let '(m, err) := json_Unmarshal useNumber payload in (MapClaims m, err)
  | CustomClaims c =>
      let '(c, err) := custom_Unmarshal useNumber payload c in (CustomClaims c, err)
  end.

(** Modelled from the spec: steps 1 to 3 of the state machine of section
    4.4 (Start to ClaimsParsed), absent from the sources: the header
    mapping, the claims, the signature bytes and the signing input of a
    token string; [None] stands for [MalformedTokenError]. *)
Definition decodeToken (pkg : Package) (p : Parser) (tokenString : string)
    (claims : Claims)
  : option (gmap string value * Claims * list byte * string) :=
  match Codec_decode pkg tokenString with
  | None => None
  | Some (hb, cb, sb, signingInput) =>
      match json_Unmarshal false hb with
      | (_, Some _) => None
      | (header, None) =>
          match decodeClaims (UseJSONNumber p) cb claims with
          | (_, Some _) => None
          | (claims, None) => Some (header, claims, sb, signingInput)
          end
      end
  end.

(** Modelled from the spec: the allow-list test of step 4 of section
    4.4, absent from the sources: without a list every [alg] passes,
    with one only its members. *)
Definition methodAllowed (p : Parser) (alg : string) : bool :=
  match ValidMethods p with
  | Some methods => existsb (String.eqb alg) methods
  | None => true
  end.

(** Modelled from the spec: [Parser.ParseWithClaims], the state machine
    of section 4.4, absent from the sources.  The result is the token
    (absent before the method is resolved, unverified on a later
    failure) and the error. *)
Definition Parser_ParseWithClaims (pkg : Package) (p : Parser) (tokenString : string)
    (claims : Claims) (keyFunc : Keyfunc) : Go (option Token * option error) :=
  match decodeToken pkg p tokenString claims with
  | None => ret (None, Some MalformedTokenError)
  | Some (header, claims, sb, signingInput) =>
      let unverified (m : option SigningMethod) :=
        match m with
        | Some m =>
            Some {| Raw := tokenString; Method := m; Header := header;
                    Claims_ := claims; Signature := EmptyString; Valid := false |}
        | None => None
        end in
      match header !! "alg" with
      | Some (VString alg) =>
          if negb (methodAllowed p alg)
          then ret (unverified (GetSigningMethod pkg alg), Some UnverifiableError)
          else
            match GetSigningMethod pkg alg with
            | None => ret (None, Some UnverifiableError)
            | Some method =>
                let token := unverified (Some method) in
                '(key, err) <- keyFunc {| Raw := tokenString; Method := method;
                                         Header := header; Claims_ := claims;
                                         Signature := EmptyString; Valid := false |} ;;
                match err with
                | Some e => ret (token, Some (UnverifiableErrorWrapping e))
                | None =>
                    err <- Verify method signingInput sb key ;;
                    match err with
                    | Some e => ret (token, Some e)
                    | None =>
                        let verified :=
                          {| Raw := tokenString; Method := method; Header := header;
                             Claims_ := claims;
                             Signature := nth 2 (Split tokenString "."%char) EmptyString;
                             Valid := true |} in
                        if SkipClaimsValidation p then ret (Some verified, None)
                        else
                          now <- TimeFunc pkg ;;
                          match validate claims now 0 with
                          | Some e => ret (token, Some e)
                          | None => ret (Some verified, None)
                          end
                    end
                end
            end
      | _ => ret (None, Some UnverifiableError)
      end
  end.

(** Modelled from the spec: [Parser.Parse] of parser.go, absent from the
    sources: the claims are parsed into the open mapping shape. *)
Definition Parser_Parse (pkg : Package) (p : Parser) (tokenString : string)
    (keyFunc : Keyfunc) : Go (option Token * option error) :=
  Parser_ParseWithClaims pkg p tokenString (MapClaims ∅) keyFunc.

(** *** token.go: the package's parse functions

    [NewParser(options...).Parse(tokenString, keyFunc)] and
    [NewParser(options...).ParseWithClaims(tokenString, claims, keyFunc)];
    [pkg] holds the package variables the parser reads. *)
Definition Parse (pkg : Package) (tokenString : string) (keyFunc : Keyfunc)
    (options : list ParserOption) : Go (option Token * option error) :=
  Parser_Parse pkg (NewParser options) tokenString keyFunc.

Definition ParseWithClaims (pkg : Package) (tokenString : string) (claims : Claims)
    (keyFunc : Keyfunc) (options : list ParserOption)
  : Go (option Token * option error) :=
  Parser_ParseWithClaims pkg (NewParser options) tokenString claims keyFunc.

End WithPlatform.
End jwt.

(** ** Package request: request.go *)
Module request.
Section WithPlatform.
Context {P : Platform}.

(** The [Extractor] interface. *)
Record Extractor : Type := {
  ExtractToken : Request -> jwt.Go (string * option error)
}.

(** [claims] and [parser] are [None] when nil. *)
Record fromRequestParser : Type := {
  req : Request;
  extractor : Extractor;
  claims : option jwt.Claims;
  parser : option jwt.Parser
}.

Definition ParseFromRequestOption : Type := fromRequestParser -> fromRequestParser.

Definition WithClaims (c : jwt.Claims) : ParseFromRequestOption :=
  fun p => {| req := req p; extractor := extractor p;
              claims := Some c; parser := parser p |}.

Definition WithParser (q : jwt.Parser) : ParseFromRequestOption :=
  fun p => {| req := req p; extractor := extractor p;
              claims := claims p; parser := Some q |}.

(** The method [ParseWithClaims] of [*jwt.Parser], whose body is in
    parser.go, is a parameter of this file. *)
Variable ParseWithClaims :
  jwt.Parser -> string -> jwt.Claims -> jwt.Keyfunc ->
  jwt.Go (option jwt.Token * option error).

Definition ParseFromRequest (r : Request) (e : Extractor) (keyFunc : jwt.Keyfunc)
    (options : list ParseFromRequestOption)
  : jwt.Go (option jwt.Token * option error) :=
  let p := {| req := r; extractor := e; claims := None; parser := None |} in
  let p := fold_left (fun p option => option p) options p in
  (* Set defaults: a nil [claims] or [parser] is replaced *)
  let claims := match claims p with
                | None => jwt.MapClaims ∅
                | Some c => c
                end in
  let parser := match parser p with
                | None => {| jwt.ValidMethods := None;
                             jwt.UseJSONNumber := false;
                             jwt.SkipClaimsValidation := false |}
                | Some q => q
                end in
  '(tokenString, err) <- ExtractToken (extractor p) r ;;
  match err with
  | Some err => ret (None, Some err)
  | None => ParseWithClaims parser tokenString claims keyFunc
  end.

Definition ParseFromRequestWithClaims (r : Request) (e : Extractor)
    (c : jwt.Claims) (keyFunc : jwt.Keyfunc)
  : jwt.Go (option jwt.Token * option error) :=
  ParseFromRequest r e keyFunc [WithClaims c].

End WithPlatform.
End request.

(** * Notions used in the statements *)

Section codec_notions.
Import base64.

(** The encodings the package uses: the URL alphabet, not strict, padded
    with [=] or not at all. *)
Definition urlLike (enc : Encoding) : Prop :=
  encode enc = encodeURL /\ strict enc = false /\
  (padChar enc = None \/ padChar enc = Some StdPadding).

(** A character is in the alphabet when its entry of the decode map is
    not 0xff. *)
Definition inAlphabet (c : ascii) : bool := negb (decodeMap URLEncoding c =? 255).

Fixpoint allInAlphabet (s : string) : bool :=
  match s with
  | EmptyString => true
  | String c rest => inAlphabet c && allInAlphabet rest
  end.

(** The 24-bit value of three bytes, as [Encode] builds it; the value of
    four sextets, as [decodeQuantum] builds it; the sextet of a value at
    a bit offset. *)
Definition pack3 (x0 x1 x2 : Z) : Z :=
  Z.lor (Z.lor (Z.shiftl x0 16) (Z.shiftl x1 8)) x2.

Definition pack4 (s0 s1 s2 s3 : Z) : Z :=
  Z.lor (Z.lor (Z.lor (Z.shiftl s0 18) (Z.shiftl s1 12)) (Z.shiftl s2 6)) s3.

Definition sextet (val k : Z) : Z := Z.land (Z.shiftr val k) 63.

(** The bytes a quantum of sextets decodes to. *)
Definition byte0 (s0 s1 s2 s3 : Z) : byte := byte_of_Z (Z.shiftr (pack4 s0 s1 s2 s3) 16).
Definition byte1 (s0 s1 s2 s3 : Z) : byte := byte_of_Z (Z.shiftr (pack4 s0 s1 s2 s3) 8).
Definition byte2 (s0 s1 s2 s3 : Z) : byte := byte_of_Z (Z.shiftr (pack4 s0 s1 s2 s3) 0).

(** The input a quantum leaves unread. *)
Definition exitRest (e : loopExit) : string :=
  match e with
  | Return _ rest _ => rest
  | Convert _ rest _ _ _ => rest
  end.

(** What [DecodeSegment] appends to a segment in the legacy mode. *)
Definition repad (seg : string) : string :=
  let l := Z.of_nat (String.length seg) mod 4 in
  if 0 <? l then seg ++ jwt.Repeat "=" (Z.to_nat (4 - l)) else seg.

(** A valid unpadded segment: characters of the alphabet, and a length
    that some byte sequence encodes to. *)
Definition unpaddedSegment (seg : string) : Prop :=
  allInAlphabet seg = true /\ Z.of_nat (String.length seg) mod 4 <> 1.

(** [pad] completes [body] to a multiple of four characters. *)
Definition completes (body pad : string) : Prop :=
  (Z.of_nat (String.length body) mod 4 = 0 /\ pad = EmptyString) \/
  (Z.of_nat (String.length body) mod 4 = 2 /\ pad = "==") \/
  (Z.of_nat (String.length body) mod 4 = 3 /\ pad = "=").

(** A valid padded segment: a non-empty padding after characters of the
    alphabet. *)
Definition paddedSegment (seg : string) : Prop :=
  exists body pad : string,
    seg = (body ++ pad)%string /\ allInAlphabet body = true /\
    pad <> EmptyString /\ completes body pad.

(** [enc.EncodedLen(n)] and [enc.DecodedLen(n)], the sizes of the buffers
    [EncodeToString] and [DecodeString] allocate. *)
Definition EncodedLen (enc : Encoding) (n : Z) : Z :=
  match padChar enc with
  | None => n / 3 * 4 + (n mod 3 * 8 + 5) / 6
  | Some _ => (n + 2) / 3 * 4
  end.

Definition DecodedLen (enc : Encoding) (n : Z) : Z :=
  match padChar enc with
  | None => n * 6 / 8
  | Some _ => n / 4 * 3
  end.

(** A character the decoder of [enc] has no use for: not in the
    alphabet, no line break and not the padding character. *)
Definition foreign (enc : Encoding) (c : ascii) : bool :=
  (decodeMap enc c =? 255) && negb (isNewline c) && negb (isPad enc c).

Fixpoint hasForeign (enc : Encoding) (s : string) : bool :=
  match s with
  | EmptyString => false
  | String c rest => foreign enc c || hasForeign enc rest
  end.

(** A quantum that cannot be followed by a successful end of the
    decoding: it ended in an error, or it is complete and a foreign
    character is still to be read. *)
Definition stuck (enc : Encoding) (e : loopExit) : Prop :=
  match e with
  | Return _ _ err => err <> None
  | Convert _ rest _ dlen err =>
      err <> None \/ (dlen = 4%nat /\ hasForeign enc rest = true)
  end.

(** A segment whose last character carries no bits beyond the last whole
    byte: after a whole number of quanta, the low two bits of the third
    character of a last block of three are zero, the low four bits of
    the second character of a last block of two.  (Go's strict decoding
    checks the same bits.) *)
Fixpoint canonical (seg : string) : Prop :=
  match seg with
  | String c0 (String c1 (String c2 (String c3 rest))) => canonical rest
  | String c0 (String c1 (String c2 EmptyString)) =>
      Z.land (decodeMap URLEncoding c2) 3 = 0
  | String c0 (String c1 EmptyString) =>
      Z.land (decodeMap URLEncoding c1) 15 = 0
  | _ => True
  end.

(** A string without its line breaks. *)
Fixpoint stripNewlines (s : string) : string :=
  match s with
  | EmptyString => EmptyString
  | String c rest =>
      if isNewline c then stripNewlines rest else String c (stripNewlines rest)
  end.

(** Two results of a decoding with the same bytes that fail together. *)
Definition sameOutcome (r1 r2 : list byte * option error) : Prop :=
  fst r1 = fst r2 /\ (snd r1 = None <-> snd r2 = None).

(** Two ends of a quantum that differ in offsets and in the line breaks
    left unread only. *)
Definition exitSim (e1 e2 : loopExit) : Prop :=
  match e1, e2 with
  | Return _ r1 err1, Return _ r2 err2 =>
      r2 = stripNewlines r1 /\ (err1 = None <-> err2 = None)
  | Convert _ r1 d1 n1 err1, Convert _ r2 d2 n2 err2 =>
      r2 = stripNewlines r1 /\ d1 = d2 /\ n1 = n2 /\ err1 = None /\ err2 = None
  | _, _ => False
  end.

End codec_notions.

Section request_notions.
Context {P : Platform}.
Import request.

(** An option that leaves the extractor of the request parser alone, as
    [WithClaims] and [WithParser] do. *)
Definition keepsExtractor (o : ParseFromRequestOption) : Prop :=
  forall p, extractor (o p) = extractor p.

End request_notions.

(** Lists of options built from the constructors the two packages export,
    and the arguments such a list carries. *)
Section option_notions.
Context {P : Platform}.

(** The options of parser_option.go. *)
Inductive parserOptionKind : Type :=
| ValidMethodsOf (methods : option (list string))
| JSONNumberOn
| ClaimsValidationOff.

Definition parserOptionOf (k : parserOptionKind) : jwt.ParserOption :=
  match k with
  | ValidMethodsOf methods => jwt.WithValidMethods methods
  | JSONNumberOn => jwt.WithJSONNumber
  | ClaimsValidationOff => jwt.WithoutClaimsValidation
  end.

(** A list of options applied to a parser one after the other. *)
Definition applyParserOptions (options : list jwt.ParserOption) (p : jwt.Parser)
  : jwt.Parser :=
  fold_left (fun p option => option p) options p.

Definition validMethodsArgs (ks : list parserOptionKind) : list (option (list string)) :=
  flat_map (fun k => match k with ValidMethodsOf methods => [methods] | _ => [] end) ks.

Definition isJSONNumberOn (k : parserOptionKind) : bool :=
  match k with JSONNumberOn => true | _ => false end.

Definition isClaimsValidationOff (k : parserOptionKind) : bool :=
  match k with ClaimsValidationOff => true | _ => false end.

(** The options of request.go. *)
Inductive requestOptionKind : Type :=
| ClaimsOf (c : jwt.Claims)
| ParserOf (q : jwt.Parser).

Definition requestOptionOf (k : requestOptionKind) : request.ParseFromRequestOption :=
  match k with
  | ClaimsOf c => request.WithClaims c
  | ParserOf q => request.WithParser q
  end.

Definition claimsArgs (ks : list requestOptionKind) : list jwt.Claims :=
  flat_map (fun k => match k with ClaimsOf c => [c] | _ => [] end) ks.

Definition parserArgs (ks : list requestOptionKind) : list jwt.Parser :=
  flat_map (fun k => match k with ParserOf q => [q] | _ => [] end) ks.

(** The zero value [jwt.Parser{}]. *)
Definition zeroParser : jwt.Parser :=
  {| jwt.ValidMethods := None; jwt.UseJSONNumber := false;
     jwt.SkipClaimsValidation := false |}.

End option_notions.

(** * A small platform to run the definitions on *)

Module demo.

(** The double quote. *)
Definition quote : string := String (ascii_of_nat 34) EmptyString.

Definition marshalValue (v : value) : option string :=
  match v with
  | VNull => Some "null"
  | VBool true => Some "true"
  | VBool false => Some "false"
  | VNumber n => Some (pretty n)
  | VString s => Some (quote ++ s ++ quote)
  | VArray _ | VObject _ => None
  end%string.

Fixpoint marshalFields (fields : list (string * value)) : option (list string) :=
  match fields with
  | [] => Some []
  | (k, v) :: rest =>
      match marshalValue v, marshalFields rest with
      | Some s, Some ss => Some ((quote ++ k ++ quote ++ ":" ++ s)%string :: ss)
      | _, _ => None
      end
  end.

(** A JSON object of scalar fields; nested values are refused. *)
Definition marshal (m : gmap string value) : list byte * option error :=
  match marshalFields (map_to_list m) with
  | Some fs => (list_byte_of_string ("{" ++ jwt.Join fs "," ++ "}"), None)
  | None => ([], Some (OtherError "json: unsupported value"))
  end.

Definition unquote (s : string) : option string :=
  match list_ascii_of_string s with
  | q :: r =>
      match rev r with
      | q' :: body =>
          if Ascii.eqb q (ascii_of_nat 34) && Ascii.eqb q' (ascii_of_nat 34)
          then Some (string_of_list_ascii (rev body)) else None
      | [] => None
      end
  | [] => None
  end.

Definition unmarshalField (s : string) : option (string * value) :=
  match jwt.Split s ":"%char with
  | [k; v] =>
      match unquote k, unquote v with
      | Some k, Some v => Some (k, VString v)
      | _, _ => None
      end
  | _ => None
  end.

Fixpoint unmarshalFields (l : list string) : option (list (string * value)) :=
  match l with
  | [] => Some []
  | s :: rest =>
      match unmarshalField s, unmarshalFields rest with
      | Some f, Some fs => Some (f :: fs)
      | _, _ => None
      end
  end.

(** Reads back a JSON object of string fields. *)
Definition unmarshal (useNumber : bool) (b : list byte) : gmap string value * option error :=
  let syntaxError := (∅, Some (OtherError "json: syntax error")) in
  match list_ascii_of_string (string_of_list_byte b) with
  | open :: r =>
      match rev r with
      | close :: body =>
          if Ascii.eqb open "{"%char && Ascii.eqb close "}"%char then
            match body with
            | [] => (∅, None)
            | _ =>
                match unmarshalFields
                        (jwt.Split (string_of_list_ascii (rev body)) ","%char) with
                | Some fs => (list_to_map fs, None)
                | None => syntaxError
                end
            end
          else syntaxError
      | [] => syntaxError
      end
  | [] => syntaxError
  end.

(** The world is a log of the calls made to the outside; keys are
    strings; a request carries its token, if it has one; the custom
    claims type is a record with an expiry only. *)
#[export] Instance platform : Platform := {|
  W := list string;
  T := string;
  any := string;
  Request := option string;
  json_Marshal := marshal;
  json_Unmarshal := unmarshal;
  Custom := Z;
  custom_Marshal := fun exp => marshal {["exp" := VNumber exp]};
  custom_Unmarshal := fun _ _ c => (c, Some (OtherError "json: unsupported value"));
  custom_Valid := fun exp now leeway =>
    if exp <? now - leeway then Some (ClaimsInvalidError ["expired"]) else None
|}.

(** A keyed method: the signature bytes are the key followed by the
    signing input; [Sign] returns them encoded as a segment. *)
Definition mac (key signingString : string) : list byte :=
  list_byte_of_string (key ++ signingString).

Definition keyed : jwt.SigningMethod := {|
  jwt.Alg := "HS256";
  jwt.Sign := fun s key w => ((jwt.EncodeSegment (mac key s), None), (w ++ ["Sign"])%list);
  jwt.Verify := fun s sig key w =>
    (if String.eqb (string_of_list_byte sig) (string_of_list_byte (mac key s))
     then None else Some SignatureInvalidError,
     (w ++ ["Verify"])%list)
|}.

(** The keyed method, refusing the empty key: [Sign] then returns the
    signing input beside its error. *)
Definition guarded : jwt.SigningMethod := {|
  jwt.Alg := "HS256";
  jwt.Sign := fun s key w =>
    if String.eqb key EmptyString
    then ((s, Some SignError), (w ++ ["Sign"])%list)
    else jwt.Sign keyed s key w;
  jwt.Verify := jwt.Verify keyed
|}.

(** A method that accepts every signature. *)
Definition unsecured : jwt.SigningMethod := {|
  jwt.Alg := "none";
  jwt.Sign := fun s key w => (("", None), (w ++ ["Sign"])%list);
  jwt.Verify := fun s sig key w => (None, (w ++ ["Verify"])%list)
|}.

Definition pkg : jwt.Package := {|
  jwt.DecodePaddingAllowed := false;
  jwt.TimeFunc := fun w => (1000, w);
  jwt.GetSigningMethod := fun alg =>
    if String.eqb alg "HS256" then Some keyed
    else if String.eqb alg "none" then Some unsecured
    else None
|}.

Definition keyFunc : jwt.Keyfunc :=
  fun _ w => (("secret", None), (w ++ ["keyFunc"])%list).

(** An extractor that finds the token in the request, or fails. *)
Definition fromRequest : request.Extractor := {|
  request.ExtractToken := fun r w =>
    match r with
    | Some s => ((s, None), (w ++ ["ExtractToken"])%list)
    | None => (("", Some (OtherError "no token present in request")),
               (w ++ ["ExtractToken"])%list)
    end
|}.

(** A parser method that logs its call. *)
Definition loggedParse (p : jwt.Parser) (s : string) (c : jwt.Claims) (k : jwt.Keyfunc)
  : jwt.Go (option jwt.Token * option error) :=
  fun w => jwt.Parser_ParseWithClaims pkg p s c k (w ++ ["ParseWithClaims"])%list.

(** A token for the unsecured method, signed. *)
Definition unsecuredToken : string :=
  fst (fst (jwt.SignedString "" (jwt.New unsecured, []))).

End demo.

(** * Properties of the codec *)

Section base64_facts.
Import base64.

Lemma urlLike_URLEncoding : urlLike URLEncoding.
Proof. repeat split; auto. Qed.

Lemma urlLike_RawURLEncoding : urlLike RawURLEncoding.
Proof. repeat split; auto. Qed.

(** ** Bytes and sextets *)

Lemma Z_of_byte_range (b : byte) : 0 <= Z_of_byte b < 2 ^ 8.
Proof.
  unfold Z_of_byte. pose proof (Byte.to_N_bounded b) as H.
  change (2 ^ 8) with 256. lia.
Qed.

Lemma byte_of_Z_eq (v : Z) (b : byte) :
  v mod 2 ^ 8 = Z_of_byte b mod 2 ^ 8 -> byte_of_Z v = b.
Proof.
  intros H. unfold byte_of_Z. change 256 with (2 ^ 8). rewrite H.
  rewrite Z.mod_small by apply Z_of_byte_range.
  unfold Z_of_byte. rewrite N2Z.id, Byte.of_to_N. reflexivity.
Qed.

Lemma land63_range (x : Z) : 0 <= Z.land x 63 < 64.
Proof.
  change 63 with (Z.ones 6). rewrite Z.land_ones by lia.
  apply Z.mod_pos_bound. lia.
Qed.

Ltac bit_rewrite :=
  repeat first
    [ rewrite Z.lor_spec | rewrite Z.land_spec
    | rewrite Z.shiftl_spec' | rewrite Z.shiftr_spec'
    | rewrite Z.testbit_mod_pow2 by lia
    | rewrite Z.testbit_ones by lia
    | rewrite Z.testbit_0_l ].

(** Equality of two bytes given by bit operations, bit by bit. *)
Ltac byte_bits :=
  apply Z.bits_inj'; intros ?i ?Hi;
  rewrite !Z.testbit_mod_pow2 by lia;
  match goal with
  | |- (?i <? 8) && _ = _ =>
      destruct (Z.ltb_spec i 8); [ | reflexivity ];
      assert (i = 0 \/ i = 1 \/ i = 2 \/ i = 3 \/ i = 4 \/ i = 5 \/ i = 6 \/ i = 7)
        as Hcases by lia;
      repeat (destruct Hcases as [-> | Hcases]); try subst i;
      bit_rewrite; simpl;
      rewrite ?andb_true_r, ?andb_false_r, ?orb_false_r, ?orb_true_r;
      reflexivity
  end.

Lemma sextets3_byte0 (x0 x1 x2 : Z) :
  let val := pack3 (x0 mod 2 ^ 8) (x1 mod 2 ^ 8) (x2 mod 2 ^ 8) in
  Z.shiftr (pack4 (sextet val 18) (sextet val 12) (sextet val 6) (Z.land val 63)) 16
    mod 2 ^ 8 = x0 mod 2 ^ 8.
Proof. unfold pack3, pack4, sextet; cbv zeta; change 63 with (Z.ones 6); byte_bits. Qed.

Lemma sextets3_byte1 (x0 x1 x2 : Z) :
  let val := pack3 (x0 mod 2 ^ 8) (x1 mod 2 ^ 8) (x2 mod 2 ^ 8) in
  Z.shiftr (pack4 (sextet val 18) (sextet val 12) (sextet val 6) (Z.land val 63)) 8
    mod 2 ^ 8 = x1 mod 2 ^ 8.
Proof. unfold pack3, pack4, sextet; cbv zeta; change 63 with (Z.ones 6); byte_bits. Qed.

Lemma sextets3_byte2 (x0 x1 x2 : Z) :
  let val := pack3 (x0 mod 2 ^ 8) (x1 mod 2 ^ 8) (x2 mod 2 ^ 8) in
  Z.shiftr (pack4 (sextet val 18) (sextet val 12) (sextet val 6) (Z.land val 63)) 0
    mod 2 ^ 8 = x2 mod 2 ^ 8.
Proof. unfold pack3, pack4, sextet; cbv zeta; change 63 with (Z.ones 6); byte_bits. Qed.

Lemma sextets2_byte0 (x0 x1 : Z) :
  let val := Z.lor (Z.shiftl (x0 mod 2 ^ 8) 16) (Z.shiftl (x1 mod 2 ^ 8) 8) in
  Z.shiftr (pack4 (sextet val 18) (sextet val 12) (sextet val 6) 0) 16
    mod 2 ^ 8 = x0 mod 2 ^ 8.
Proof. unfold pack4, sextet; cbv zeta; change 63 with (Z.ones 6); byte_bits. Qed.

Lemma sextets2_byte1 (x0 x1 : Z) :
  let val := Z.lor (Z.shiftl (x0 mod 2 ^ 8) 16) (Z.shiftl (x1 mod 2 ^ 8) 8) in
  Z.shiftr (pack4 (sextet val 18) (sextet val 12) (sextet val 6) 0) 8
    mod 2 ^ 8 = x1 mod 2 ^ 8.
Proof. unfold pack4, sextet; cbv zeta; change 63 with (Z.ones 6); byte_bits. Qed.

Lemma sextets1_byte0 (x0 : Z) :
  let val := Z.shiftl (x0 mod 2 ^ 8) 16 in
  Z.shiftr (pack4 (sextet val 18) (sextet val 12) 0 0) 16 mod 2 ^ 8 = x0 mod 2 ^ 8.
Proof. unfold pack4, sextet; cbv zeta; change 63 with (Z.ones 6); byte_bits. Qed.

(** ** The alphabet *)

Lemma decodeMap_encodeAt (enc : Encoding) (i : Z) :
  encode enc = encodeURL -> 0 <= i < 64 -> decodeMap enc (encodeAt enc i) = i.
Proof.
  intros He Hi. unfold decodeMap, encodeAt. rewrite He.
  assert (exists n : nat, (n < 64)%nat /\ i = Z.of_nat n) as (n & Hn & ->).
  { exists (Z.to_nat i). lia. }
  rewrite Nat2Z.id.
  do 64 (destruct n as [|n]; [reflexivity|]). lia.
Qed.

Lemma decodeMap_urlLike (enc : Encoding) (c : ascii) :
  encode enc = encodeURL -> decodeMap enc c = decodeMap URLEncoding c.
Proof. intros He. unfold decodeMap. rewrite He. reflexivity. Qed.

Lemma inAlphabet_spec (c : ascii) :
  inAlphabet c = true ->
  0 <= decodeMap URLEncoding c < 64 /\ isNewline c = false /\ c <> StdPadding.
Proof.
  unfold inAlphabet.
  destruct c as [[] [] [] [] [] [] [] []]; vm_compute; intros H;
    first [ discriminate H | repeat split; congruence ].
Qed.

Lemma encodeAt_inAlphabet (enc : Encoding) (i : Z) :
  encode enc = encodeURL -> 0 <= i < 64 -> inAlphabet (encodeAt enc i) = true.
Proof.
  intros He Hi. unfold inAlphabet.
  rewrite <- (decodeMap_urlLike enc) by assumption.
  rewrite decodeMap_encodeAt by assumption.
  destruct (Z.eqb_spec i 255); [lia | reflexivity].
Qed.

(** ** One quantum *)

Lemma quantumLoop_char (enc : Encoding) (c : ascii) (rest : string) (si : Z)
    (j : nat) (dbuf : list Z) :
  encode enc = encodeURL -> inAlphabet c = true ->
  quantumLoop enc (String c rest) si j dbuf =
    if Nat.eqb (S j) 4
    then Convert (si + 1) rest (dbuf ++ [decodeMap URLEncoding c])%list 4 None
    else quantumLoop enc rest (si + 1) (S j) (dbuf ++ [decodeMap URLEncoding c])%list.
Proof.
  intros He Hc. cbn [quantumLoop]. rewrite (decodeMap_urlLike enc) by assumption.
  unfold inAlphabet in Hc. rewrite Hc. reflexivity.
Qed.

Lemma quantumLoop_pad (enc : Encoding) (rest : string) (si : Z) (j : nat)
    (dbuf : list Z) :
  encode enc = encodeURL ->
  quantumLoop enc (String StdPadding rest) si j dbuf =
    if negb (isPad enc StdPadding)
    then Return (si + 1) rest (Some (CorruptInputError (si + 1 - 1)))
    else
      match j with
      | 0%nat | 1%nat => Return (si + 1) rest (Some (CorruptInputError (si + 1 - 1)))
      | 2%nat =>
          let '(rest, si) := skipNewlines rest (si + 1) in
          match rest with
          | EmptyString => Return si rest (Some (CorruptInputError si))
          | String c2 rest2 =>
              if negb (isPad enc c2)
              then Return si rest (Some (CorruptInputError (si - 1)))
              else afterPadding rest2 (si + 1) dbuf j
          end
      | _ => afterPadding rest (si + 1) dbuf j
      end.
Proof.
  intros He. cbn [quantumLoop]. rewrite (decodeMap_urlLike enc) by assumption.
  reflexivity.
Qed.

Local Abbreviation dm := (decodeMap URLEncoding).

(** Four characters of the alphabet decode to three bytes. *)
Lemma decodeQuantum_4 (enc : Encoding) (c0 c1 c2 c3 : ascii) (rest : string) (si : Z) :
  encode enc = encodeURL ->
  inAlphabet c0 = true -> inAlphabet c1 = true ->
  inAlphabet c2 = true -> inAlphabet c3 = true ->
  decodeQuantum enc (String c0 (String c1 (String c2 (String c3 rest)))) si =
    (rest, si + 1 + 1 + 1 + 1,
     [byte0 (dm c0) (dm c1) (dm c2) (dm c3); byte1 (dm c0) (dm c1) (dm c2) (dm c3);
      byte2 (dm c0) (dm c1) (dm c2) (dm c3)], None).
Proof.
  intros He H0 H1 H2 H3. unfold decodeQuantum.
  rewrite !quantumLoop_char by assumption. reflexivity.
Qed.

(** At the end of an unpadded input, three characters decode to two
    bytes and two characters to one. *)
Lemma decodeQuantum_3_end (enc : Encoding) (c0 c1 c2 : ascii) (si : Z) :
  encode enc = encodeURL -> strict enc = false -> padChar enc = None ->
  inAlphabet c0 = true -> inAlphabet c1 = true -> inAlphabet c2 = true ->
  decodeQuantum enc (String c0 (String c1 (String c2 EmptyString))) si =
    (EmptyString, si + 1 + 1 + 1,
     [byte0 (dm c0) (dm c1) (dm c2) 0; byte1 (dm c0) (dm c1) (dm c2) 0], None).
Proof.
  intros He Hs Hp H0 H1 H2. unfold decodeQuantum.
  rewrite !quantumLoop_char by assumption.
  cbn [quantumLoop Nat.eqb orb]. unfold hasPadding. rewrite Hp, Hs. reflexivity.
Qed.

Lemma decodeQuantum_2_end (enc : Encoding) (c0 c1 : ascii) (si : Z) :
  encode enc = encodeURL -> strict enc = false -> padChar enc = None ->
  inAlphabet c0 = true -> inAlphabet c1 = true ->
  decodeQuantum enc (String c0 (String c1 EmptyString)) si =
    (EmptyString, si + 1 + 1, [byte0 (dm c0) (dm c1) 0 0], None).
Proof.
  intros He Hs Hp H0 H1. unfold decodeQuantum.
  rewrite !quantumLoop_char by assumption.
  cbn [quantumLoop Nat.eqb orb]. unfold hasPadding. rewrite Hp, Hs. reflexivity.
Qed.

(** With padding, [xxx=] decodes to two bytes and [xx==] to one. *)
Lemma decodeQuantum_3_pad (enc : Encoding) (c0 c1 c2 : ascii) (si : Z) :
  encode enc = encodeURL -> strict enc = false -> padChar enc = Some StdPadding ->
  inAlphabet c0 = true -> inAlphabet c1 = true -> inAlphabet c2 = true ->
  decodeQuantum enc (String c0 (String c1 (String c2 (String StdPadding EmptyString)))) si =
    (EmptyString, si + 1 + 1 + 1 + 1,
     [byte0 (dm c0) (dm c1) (dm c2) 0; byte1 (dm c0) (dm c1) (dm c2) 0], None).
Proof.
  intros He Hs Hp H0 H1 H2. unfold decodeQuantum.
  rewrite !quantumLoop_char by assumption. cbn [Nat.eqb].
  rewrite quantumLoop_pad by assumption.
  unfold isPad. rewrite Hp, Hs. reflexivity.
Qed.

Lemma decodeQuantum_2_pad (enc : Encoding) (c0 c1 : ascii) (si : Z) :
  encode enc = encodeURL -> strict enc = false -> padChar enc = Some StdPadding ->
  inAlphabet c0 = true -> inAlphabet c1 = true ->
  decodeQuantum enc
    (String c0 (String c1 (String StdPadding (String StdPadding EmptyString)))) si =
    (EmptyString, si + 1 + 1 + 1 + 1, [byte0 (dm c0) (dm c1) 0 0], None).
Proof.
  intros He Hs Hp H0 H1. unfold decodeQuantum.
  rewrite !quantumLoop_char by assumption. cbn [Nat.eqb].
  rewrite quantumLoop_pad by assumption.
  unfold isPad. rewrite Hp, Hs. reflexivity.
Qed.

(** ** The fuel of the decoding loop

    A quantum read from a non-empty input leaves strictly less input, so
    the loop of [Decode] ends within [len(src)] iterations: more fuel
    never changes the result. *)

Lemma skipNewlines_length (src : string) (si : Z) :
  (String.length (fst (skipNewlines src si)) <= String.length src)%nat.
Proof.
  revert si. induction src as [|c src IH]; intros si; cbn [skipNewlines]; [cbn; lia|].
  destruct (isNewline c); cbn [fst String.length]; [|lia].
  specialize (IH (si + 1)). lia.
Qed.

Lemma afterPadding_length (src : string) (si : Z) (dbuf : list Z) (j : nat) :
  (String.length (exitRest (afterPadding src si dbuf j)) <= String.length src)%nat.
Proof.
  unfold afterPadding. pose proof (skipNewlines_length src si) as H.
  destruct (skipNewlines src si) as [[|c rest] si']; cbn [fst exitRest] in *; exact H.
Qed.

Lemma quantumLoop_length (enc : Encoding) (src : string) :
  forall (si : Z) (j : nat) (dbuf : list Z),
    (String.length (exitRest (quantumLoop enc src si j dbuf)) <= String.length src
     /\ (src <> EmptyString ->
         String.length (exitRest (quantumLoop enc src si j dbuf)) < String.length src))%nat.
Proof.
  induction src as [|c src IH]; intros si j dbuf.
  - split; [|congruence]. cbn [quantumLoop].
    destruct j; [cbn; lia|]. destruct (_ || _); cbn; lia.
  - assert (String.length (exitRest (quantumLoop enc (String c src) si j dbuf))
            <= String.length src)%nat as H; [|cbn [String.length]; split; intros; lia].
    cbn [quantumLoop].
    destruct (negb (decodeMap enc c =? 255)).
    { destruct (Nat.eqb (S j) 4); [cbn; lia | apply IH]. }
    destruct (isNewline c); [apply IH|].
    destruct (negb (isPad enc c)); [cbn; lia|].
    destruct j as [|[|[|j]]]; try (cbn [exitRest]; lia).
    + pose proof (skipNewlines_length src (si + 1)) as Hs.
      destruct (skipNewlines src (si + 1)) as [[|c2 rest2] si']; cbn [fst] in Hs.
      * cbn [exitRest]. exact Hs.
      * destruct (negb (isPad enc c2)); [cbn [exitRest]; exact Hs|].
        pose proof (afterPadding_length rest2 (si' + 1) dbuf 2) as Ha.
        cbn [String.length] in Hs. lia.
    + apply afterPadding_length.
Qed.

Lemma decodeQuantum_length (enc : Encoding) (c : ascii) (src : string) (si : Z) :
  (String.length (fst (fst (fst (decodeQuantum enc (String c src) si))))
   <= String.length src)%nat.
Proof.
  unfold decodeQuantum.
  destruct (quantumLoop_length enc (String c src) si 0 []) as [_ H].
  specialize (H ltac:(discriminate)). cbn [String.length] in H.
  destruct (quantumLoop enc (String c src) si 0 []) as [si' rest err | si' rest dbuf dlen err];
    cbn [exitRest] in H.
  - cbn [fst]. lia.
  - destruct dlen as [|[|[|[|[|dlen]]]]]; try (cbn [fst]; lia).
    + destruct (strict enc && _); cbn [fst]; lia.
    + destruct (strict enc && _); cbn [fst]; lia.
Qed.

Lemma decodeLoop_fuel_irrelevant (enc : Encoding) (fuel1 : nat) :
  forall (fuel2 : nat) (src : string) (si : Z),
    (String.length src <= fuel1)%nat -> (String.length src <= fuel2)%nat ->
    decodeLoop enc fuel1 src si = decodeLoop enc fuel2 src si.
Proof.
  induction fuel1 as [|fuel1 IH]; intros fuel2 src si H1 H2.
  - destruct src; [|cbn in H1; lia]. destruct fuel2; reflexivity.
  - destruct src as [|c src]; [destruct fuel2; reflexivity|].
    destruct fuel2 as [|fuel2]; [cbn in H2; lia|].
    cbn [decodeLoop String.length] in *.
    pose proof (decodeQuantum_length enc c src si) as Hq.
    destruct (decodeQuantum enc (String c src) si) as [[[rest si'] out] [e|]];
      [reflexivity|].
    cbn [fst] in Hq. rewrite (IH fuel2 rest si') by lia. reflexivity.
Qed.

(** With enough fuel the loop computes what [DecodeString] returns. *)
Lemma decodeLoop_fuel (enc : Encoding) (fuel : nat) (src : string) :
  (String.length src <= fuel)%nat ->
  decodeLoop enc fuel src 0 = DecodeString enc src.
Proof.
  intros H. unfold DecodeString. apply decodeLoop_fuel_irrelevant; lia.
Qed.

(** ** Decoding what the encoder wrote *)

Lemma dm_encodeAt (enc : Encoding) (i : Z) :
  encode enc = encodeURL -> 0 <= i < 64 -> dm (encodeAt enc i) = i.
Proof.
  intros He Hi. rewrite <- (decodeMap_urlLike enc) by assumption.
  apply decodeMap_encodeAt; assumption.
Qed.

Ltac use_sextets L :=
  apply byte_of_Z_eq;
  let H := fresh in
  pose proof L as H; cbv zeta in H;
  repeat match type of H with
         | context [Z_of_byte ?b mod 2 ^ 8] =>
             rewrite (Z.mod_small (Z_of_byte b) (2 ^ 8)) in H by apply Z_of_byte_range
         end;
  rewrite H; symmetry; apply Z.mod_small, Z_of_byte_range.

Lemma byte0_of_3 (b0 b1 b2 : byte) :
  let val := pack3 (Z_of_byte b0) (Z_of_byte b1) (Z_of_byte b2) in
  byte0 (sextet val 18) (sextet val 12) (sextet val 6) (Z.land val 63) = b0.
Proof. use_sextets (sextets3_byte0 (Z_of_byte b0) (Z_of_byte b1) (Z_of_byte b2)). Qed.

Lemma byte1_of_3 (b0 b1 b2 : byte) :
  let val := pack3 (Z_of_byte b0) (Z_of_byte b1) (Z_of_byte b2) in
  byte1 (sextet val 18) (sextet val 12) (sextet val 6) (Z.land val 63) = b1.
Proof. use_sextets (sextets3_byte1 (Z_of_byte b0) (Z_of_byte b1) (Z_of_byte b2)). Qed.

Lemma byte2_of_3 (b0 b1 b2 : byte) :
  let val := pack3 (Z_of_byte b0) (Z_of_byte b1) (Z_of_byte b2) in
  byte2 (sextet val 18) (sextet val 12) (sextet val 6) (Z.land val 63) = b2.
Proof. use_sextets (sextets3_byte2 (Z_of_byte b0) (Z_of_byte b1) (Z_of_byte b2)). Qed.

Lemma byte0_of_2 (b0 b1 : byte) :
  let val := Z.lor (Z.shiftl (Z_of_byte b0) 16) (Z.shiftl (Z_of_byte b1) 8) in
  byte0 (sextet val 18) (sextet val 12) (sextet val 6) 0 = b0.
Proof. use_sextets (sextets2_byte0 (Z_of_byte b0) (Z_of_byte b1)). Qed.

Lemma byte1_of_2 (b0 b1 : byte) :
  let val := Z.lor (Z.shiftl (Z_of_byte b0) 16) (Z.shiftl (Z_of_byte b1) 8) in
  byte1 (sextet val 18) (sextet val 12) (sextet val 6) 0 = b1.
Proof. use_sextets (sextets2_byte1 (Z_of_byte b0) (Z_of_byte b1)). Qed.

Lemma byte0_of_1 (b0 : byte) :
  let val := Z.shiftl (Z_of_byte b0) 16 in
  byte0 (sextet val 18) (sextet val 12) 0 0 = b0.
Proof. use_sextets (sextets1_byte0 (Z_of_byte b0)). Qed.

Lemma decodeLoop_nil (enc : Encoding) (fuel : nat) (si : Z) :
  decodeLoop enc fuel EmptyString si = ([], None).
Proof. destruct fuel; reflexivity. Qed.

Create HintDb b64.
#[local] Hint Resolve land63_range encodeAt_inAlphabet : b64.

(** Decoding inverts encoding, for both encodings of the package, from
    any offset and with any fuel that covers the input. *)
Lemma decodeLoop_EncodeToString (enc : Encoding) :
  urlLike enc ->
  forall (fuel : nat) (src : list byte) (si : Z),
    (String.length (EncodeToString enc src) <= fuel)%nat ->
    decodeLoop enc fuel (EncodeToString enc src) si = (src, None).
Proof.
  intros (He & Hs & Hp) fuel.
  induction fuel as [|fuel IH]; intros src si Hlen.
  - destruct src as [|b0 [|b1 [|b2 rest]]];
      cbn [EncodeToString String.length] in Hlen; try lia. reflexivity.
  - destruct src as [|b0 [|b1 [|b2 rest]]].
    + reflexivity.
    + cbn [EncodeToString decodeLoop]. unfold padString.
      destruct Hp as [Hp|Hp]; rewrite Hp; cbn [repeat string_of_list_ascii].
      * rewrite decodeQuantum_2_end by auto with b64.
        rewrite decodeLoop_nil, !dm_encodeAt by auto with b64.
        cbn [app]. do 2 f_equal. apply byte0_of_1.
      * rewrite decodeQuantum_2_pad by auto with b64.
        rewrite decodeLoop_nil, !dm_encodeAt by auto with b64.
        cbn [app]. do 2 f_equal. apply byte0_of_1.
    + cbn [EncodeToString decodeLoop]. unfold padString.
      destruct Hp as [Hp|Hp]; rewrite Hp; cbn [repeat string_of_list_ascii].
      * rewrite decodeQuantum_3_end by auto with b64.
        rewrite decodeLoop_nil, !dm_encodeAt by auto with b64.
        cbn [app]. f_equal. f_equal; [apply byte0_of_2 | f_equal; apply byte1_of_2].
      * rewrite decodeQuantum_3_pad by auto with b64.
        rewrite decodeLoop_nil, !dm_encodeAt by auto with b64.
        cbn [app]. f_equal. f_equal; [apply byte0_of_2 | f_equal; apply byte1_of_2].
    + cbn [EncodeToString String.length] in Hlen.
      cbn [EncodeToString decodeLoop].
      rewrite decodeQuantum_4 by auto with b64.
      rewrite IH by lia. rewrite !dm_encodeAt by auto with b64.
      cbn [app]. f_equal.
      f_equal; [apply byte0_of_3 | f_equal; [apply byte1_of_3 | f_equal; apply byte2_of_3]].
Qed.

Lemma DecodeString_EncodeToString (enc : Encoding) (src : list byte) :
  urlLike enc -> DecodeString enc (EncodeToString enc src) = (src, None).
Proof.
  intros Henc. unfold DecodeString.
  apply decodeLoop_EncodeToString; [assumption | lia].
Qed.

(** ** Padding an unpadded segment *)

Lemma list_ind3 {A : Type} (Q : list A -> Prop) :
  Q [] -> (forall a, Q [a]) -> (forall a b, Q [a; b]) ->
  (forall a b c l, Q l -> Q (a :: b :: c :: l)) ->
  forall l, Q l.
Proof.
  intros H0 H1 H2 H3. fix IH 1.
  intros [|a [|b [|c l]]]; [exact H0 | exact (H1 a) | exact (H2 a b) | exact (H3 a b c l (IH l))].
Qed.

Lemma mod4_SSSS (n : nat) :
  Z.of_nat (S (S (S (S n)))) mod 4 = Z.of_nat n mod 4.
Proof.
  replace (Z.of_nat (S (S (S (S n))))) with (Z.of_nat n + 1 * 4) by lia.
  apply Z_mod_plus_full.
Qed.

Lemma repad_String4 (c0 c1 c2 c3 : ascii) (seg : string) :
  repad (String c0 (String c1 (String c2 (String c3 seg)))) =
  String c0 (String c1 (String c2 (String c3 (repad seg)))).
Proof.
  unfold repad. cbn [String.length]. rewrite mod4_SSSS.
  destruct (0 <? Z.of_nat (String.length seg) mod 4); reflexivity.
Qed.

(** Padding the unpadded encoding gives the padded encoding. *)
Lemma repad_EncodeToString (src : list byte) :
  repad (EncodeToString RawURLEncoding src) = EncodeToString URLEncoding src.
Proof.
  induction src as [| a | a b | a b c l IH] using list_ind3; try reflexivity.
  cbn [EncodeToString]. rewrite repad_String4, IH. reflexivity.
Qed.

(** ** Segments *)

Lemma append_String (c : ascii) (s1 s2 : string) :
  (String c s1 ++ s2)%string = String c (s1 ++ s2).
Proof. reflexivity. Qed.

Lemma append_Empty (s : string) : (EmptyString ++ s)%string = s.
Proof. reflexivity. Qed.

Lemma length_append (s1 s2 : string) :
  String.length (s1 ++ s2) = (String.length s1 + String.length s2)%nat.
Proof.
  induction s1 as [|c s1 IH]; [reflexivity|].
  rewrite append_String. cbn [String.length]. now rewrite IH.
Qed.

Lemma append_nil_r (s : string) : (s ++ EmptyString)%string = s.
Proof.
  induction s as [|c s IH]; [reflexivity|].
  rewrite append_String. now rewrite IH.
Qed.

Lemma allInAlphabet_String (c : ascii) (s : string) :
  allInAlphabet (String c s) = true -> inAlphabet c = true /\ allInAlphabet s = true.
Proof. cbn. apply andb_true_iff. Qed.

Ltac alphabet :=
  repeat match goal with
         | H : allInAlphabet (String _ _) = true |- _ =>
             apply allInAlphabet_String in H; destruct H
         end.

(** The unpadded encoding uses characters of the alphabet only. *)
Lemma allInAlphabet_EncodeToString (src : list byte) :
  allInAlphabet (EncodeToString RawURLEncoding src) = true.
Proof.
  induction src as [| a | a b | a b c l IH] using list_ind3;
    cbn [EncodeToString allInAlphabet padString padChar RawURLEncoding WithPadding];
    rewrite ?IH, ?encodeAt_inAlphabet by auto with b64; reflexivity.
Qed.

Lemma allInAlphabet_no_pad (s : string) :
  allInAlphabet s = true -> ~ In StdPadding (list_ascii_of_string s).
Proof.
  induction s as [|c s IH]; cbn [list_ascii_of_string In]; [tauto|].
  intros H [Heq | Hin]; alphabet.
  - apply inAlphabet_spec in H. intuition congruence.
  - apply IH in Hin; assumption.
Qed.

(** The unpadded decoder rejects a padding character. *)
Lemma decodeLoop_raw_pad (fuel : nat) :
  forall (body rest : string) (si : Z),
    allInAlphabet body = true -> (String.length body < fuel)%nat ->
    snd (decodeLoop RawURLEncoding fuel (body ++ String StdPadding rest) si) <> None.
Proof.
  induction fuel as [|fuel IH]; intros body rest si Hb Hlen; [lia|].
  destruct body as [|c0 [|c1 [|c2 [|c3 body]]]]; alphabet;
    rewrite ?append_String, ?append_Empty; cbn [decodeLoop].
  5: { rewrite decodeQuantum_4 by auto.
       cbn [String.length] in Hlen.
       specialize (IH body rest (si + 1 + 1 + 1 + 1) ltac:(assumption) ltac:(lia)).
       destruct (decodeLoop RawURLEncoding fuel (body ++ String StdPadding rest)
                   (si + 1 + 1 + 1 + 1)).
       exact IH. }
  all: unfold decodeQuantum;
    rewrite ?quantumLoop_char by auto; cbn [Nat.eqb];
    rewrite quantumLoop_pad by auto; cbn; discriminate.
Qed.

(** The padded decoder accepts characters of the alphabet completed by
    padding. *)
Lemma decodeLoop_url_ok (fuel : nat) :
  forall (body pad : string) (si : Z),
    allInAlphabet body = true -> completes body pad ->
    (String.length (body ++ pad) <= fuel)%nat ->
    snd (decodeLoop URLEncoding fuel (body ++ pad) si) = None.
Proof.
  induction fuel as [|fuel IH]; intros body pad si Hb Hc Hlen.
  - rewrite length_append in Hlen.
    destruct body; cbn [String.length] in Hlen; [|lia].
    destruct pad; [reflexivity | cbn [String.length] in Hlen; lia].
  - destruct body as [|c0 [|c1 [|c2 [|c3 body]]]]; alphabet.
    5: { rewrite !append_String. cbn [decodeLoop]. rewrite decodeQuantum_4 by auto.
         rewrite !append_String in Hlen. cbn [String.length] in Hlen.
         assert (completes body pad) as Hc'.
         { unfold completes in *. cbn [String.length] in Hc.
           rewrite mod4_SSSS in Hc. exact Hc. }
         specialize (IH body pad (si + 1 + 1 + 1 + 1) ltac:(assumption) Hc' ltac:(lia)).
         destruct (decodeLoop URLEncoding fuel (body ++ pad) (si + 1 + 1 + 1 + 1)).
         exact IH. }
    all: destruct Hc as [(Hm & ->) | [(Hm & ->) | (Hm & ->)]];
      try (vm_compute in Hm; discriminate Hm).
    + reflexivity.
    + rewrite !append_String, append_Empty. cbn [decodeLoop].
      rewrite decodeQuantum_2_pad by auto.
      rewrite decodeLoop_nil. reflexivity.
    + rewrite !append_String, append_Empty. cbn [decodeLoop].
      rewrite decodeQuantum_3_pad by auto.
      rewrite decodeLoop_nil. reflexivity.
Qed.

(** The unpadded decoder accepts a valid unpadded segment. *)
Lemma decodeLoop_raw_ok (fuel : nat) :
  forall (seg : string) (si : Z),
    unpaddedSegment seg -> (String.length seg <= fuel)%nat ->
    snd (decodeLoop RawURLEncoding fuel seg si) = None.
Proof.
  induction fuel as [|fuel IH]; intros seg si (Hb & Hm) Hlen.
  - destruct seg; [reflexivity | cbn in Hlen; lia].
  - destruct seg as [|c0 [|c1 [|c2 [|c3 seg]]]]; alphabet.
    + reflexivity.
    + exfalso. apply Hm. reflexivity.
    + cbn [decodeLoop]. rewrite decodeQuantum_2_end by auto.
      rewrite decodeLoop_nil. reflexivity.
    + cbn [decodeLoop]. rewrite decodeQuantum_3_end by auto.
      rewrite decodeLoop_nil. reflexivity.
    + cbn [decodeLoop]. rewrite decodeQuantum_4 by auto.
      cbn [String.length] in Hlen, Hm. rewrite mod4_SSSS in Hm.
      assert (unpaddedSegment seg) as Hu by (split; assumption).
      specialize (IH seg (si + 1 + 1 + 1 + 1) Hu ltac:(lia)).
      destruct (decodeLoop RawURLEncoding fuel seg (si + 1 + 1 + 1 + 1)).
      exact IH.
Qed.

(** Padding a valid unpadded segment completes it. *)
Lemma repad_completes (seg : string) :
  unpaddedSegment seg -> exists pad, repad seg = (seg ++ pad)%string /\ completes seg pad.
Proof.
  intros (_ & Hm). unfold repad, completes.
  pose proof (Z.mod_pos_bound (Z.of_nat (String.length seg)) 4 ltac:(lia)) as Hr.
  assert (Z.of_nat (String.length seg) mod 4 = 0 \/
          Z.of_nat (String.length seg) mod 4 = 2 \/
          Z.of_nat (String.length seg) mod 4 = 3) as [H | [H | H]] by lia;
    rewrite H; cbn.
  - exists EmptyString. rewrite append_nil_r. auto.
  - exists "=="%string. auto.
  - exists "="%string. auto.
Qed.

(** A valid padded segment is left as it is. *)
Lemma repad_padded (body pad : string) :
  completes body pad -> repad (body ++ pad) = (body ++ pad)%string.
Proof.
  intros Hc. unfold repad. rewrite length_append, Nat2Z.inj_add.
  rewrite Z.add_mod by lia.
  destruct Hc as [(Hm & ->) | [(Hm & ->) | (Hm & ->)]]; rewrite Hm; reflexivity.
Qed.

(** ** What the encoders write is valid *)

Lemma EncodeToString_Raw_length (src : list byte) :
  Z.of_nat (String.length (EncodeToString RawURLEncoding src)) mod 4 <> 1.
Proof.
  induction src as [| a | a b | a b c l IH] using list_ind3;
    cbn [EncodeToString padString padChar RawURLEncoding WithPadding String.length];
    try discriminate.
  rewrite mod4_SSSS. exact IH.
Qed.

Lemma EncodeSegment_unpaddedSegment (b : list byte) :
  unpaddedSegment (jwt.EncodeSegment b).
Proof.
  split; [apply allInAlphabet_EncodeToString | apply EncodeToString_Raw_length].
Qed.

(** The padded encoding of a byte sequence whose length is no multiple
    of three is a valid padded segment. *)
Lemma EncodeToString_URL_paddedSegment (src : list byte) :
  Z.of_nat (length src) mod 3 <> 0 ->
  paddedSegment (EncodeToString URLEncoding src).
Proof.
  induction src as [| a | a b | a b c l IH] using list_ind3; intros Hm.
  - exfalso. apply Hm. reflexivity.
  - eexists (String _ (String _ EmptyString)), "=="%string.
    split; [reflexivity|]. split.
    { cbn [allInAlphabet]. rewrite !encodeAt_inAlphabet by auto with b64. reflexivity. }
    split; [discriminate|]. right; left. split; reflexivity.
  - eexists (String _ (String _ (String _ EmptyString))), "="%string.
    split; [reflexivity|]. split.
    { cbn [allInAlphabet]. rewrite !encodeAt_inAlphabet by auto with b64. reflexivity. }
    split; [discriminate|]. right; right. split; reflexivity.
  - destruct IH as (body & pad & Heq & Hb & Hne & Hc).
    { intros H. apply Hm. cbn [length].
      replace (Z.of_nat (S (S (S (length l))))) with (Z.of_nat (length l) + 1 * 3) by lia.
      rewrite Z_mod_plus_full. exact H. }
    cbn [EncodeToString]. rewrite Heq.
    eexists (String _ (String _ (String _ (String _ body)))), pad.
    split; [rewrite !append_String; reflexivity|]. split.
    { cbn [allInAlphabet]. rewrite !encodeAt_inAlphabet by auto with b64. exact Hb. }
    split; [exact Hne|].
    unfold completes in *. cbn [String.length]. rewrite mod4_SSSS. exact Hc.
Qed.

(** ** Sizes, injectivity and concatenation of encodings *)

Lemma EncodeToString_length (enc : Encoding) (src : list byte) :
  padChar enc = None \/ padChar enc = Some StdPadding ->
  Z.of_nat (String.length (EncodeToString enc src)) = EncodedLen enc (Z.of_nat (length src)).
Proof.
  intros Hp. unfold EncodedLen.
  induction src as [| a | a b | a b c l IH] using list_ind3;
    cbn [EncodeToString]; unfold padString;
    destruct Hp as [Hp | Hp]; rewrite Hp in *; try reflexivity.
  all: cbn [String.length length]; rewrite !Nat2Z.inj_succ, IH;
    Z.div_mod_to_equations; lia.
Qed.

(** X1.  The length of an encoded segment is [EncodedLen] of the number
    of bytes: four characters for every three bytes, two or three for a
    last block of one or two bytes. *)
Theorem EncodeSegment_length (b : list byte) :
  Z.of_nat (String.length (jwt.EncodeSegment b)) =
    Z.of_nat (length b) / 3 * 4 + (Z.of_nat (length b) mod 3 * 8 + 5) / 6 /\
  Z.of_nat (String.length (jwt.EncodeSegment b)) =
    EncodedLen RawURLEncoding (Z.of_nat (length b)).
Proof.
  assert (Z.of_nat (String.length (jwt.EncodeSegment b)) =
          EncodedLen RawURLEncoding (Z.of_nat (length b))) as H.
  { apply EncodeToString_length. left. reflexivity. }
  split; exact H.
Qed.

(** X2.  Two byte sequences have the same encoded segment only if they
    are equal. *)
Theorem EncodeSegment_inj (a b : list byte) :
  jwt.EncodeSegment a = jwt.EncodeSegment b <-> a = b.
Proof.
  split; [|intros ->; reflexivity].
  intros H. unfold jwt.EncodeSegment in H.
  apply (f_equal (DecodeString RawURLEncoding)) in H.
  rewrite !DecodeString_EncodeToString in H by apply urlLike_RawURLEncoding.
  congruence.
Qed.

Lemma EncodeToString_app (enc : Encoding) (a b : list byte) :
  Z.of_nat (length a) mod 3 = 0 ->
  EncodeToString enc (a ++ b) = (EncodeToString enc a ++ EncodeToString enc b)%string.
Proof.
  induction a as [| x | x y | x y z l IH] using list_ind3; intros Hm.
  - reflexivity.
  - discriminate Hm.
  - discriminate Hm.
  - cbn [length] in Hm.
    replace (Z.of_nat (S (S (S (length l))))) with (Z.of_nat (length l) + 1 * 3) in Hm by lia.
    rewrite Z_mod_plus_full in Hm.
    cbn [app EncodeToString]. rewrite (IH Hm), !append_String. reflexivity.
Qed.

(** X3.  After a whole number of three-byte blocks the encoding starts
    afresh: the segment of a concatenation is the concatenation of the
    segments. *)
Theorem EncodeSegment_app (a b : list byte) :
  Z.of_nat (length a) mod 3 = 0 ->
  jwt.EncodeSegment (a ++ b) = (jwt.EncodeSegment a ++ jwt.EncodeSegment b)%string.
Proof. apply EncodeToString_app. Qed.

(** ** The two decoding modes compared *)

Lemma append_assoc (s1 s2 s3 : string) :
  ((s1 ++ s2) ++ s3)%string = (s1 ++ (s2 ++ s3))%string.
Proof.
  induction s1 as [|c s1 IH]; [reflexivity|].
  rewrite !append_String, IH. reflexivity.
Qed.

(** The padded decoder on a completed segment returns what the unpadded
    decoder returns on the segment without its padding. *)
Lemma decodeLoop_url_raw (fuel : nat) :
  forall (body pad : string) (si : Z),
    allInAlphabet body = true -> completes body pad ->
    (String.length (body ++ pad) <= fuel)%nat ->
    decodeLoop URLEncoding fuel (body ++ pad) si = decodeLoop RawURLEncoding fuel body si.
Proof.
  induction fuel as [|fuel IH]; intros body pad si Hb Hc Hlen.
  - rewrite length_append in Hlen.
    destruct body; cbn [String.length] in Hlen; [|lia].
    destruct pad; [reflexivity | cbn [String.length] in Hlen; lia].
  - destruct body as [|c0 [|c1 [|c2 [|c3 body]]]]; alphabet.
    5: { rewrite !append_String. cbn [decodeLoop]. rewrite !decodeQuantum_4 by auto.
         rewrite !append_String in Hlen. cbn [String.length] in Hlen.
         assert (completes body pad) as Hc'.
         { unfold completes in *. cbn [String.length] in Hc.
           rewrite mod4_SSSS in Hc. exact Hc. }
         rewrite (IH body pad (si + 1 + 1 + 1 + 1)) by (assumption || lia).
         reflexivity. }
    all: destruct Hc as [(Hm & ->) | [(Hm & ->) | (Hm & ->)]];
      try (vm_compute in Hm; discriminate Hm).
    + reflexivity.
    + rewrite !append_String, append_Empty. cbn [decodeLoop].
      rewrite decodeQuantum_2_pad, decodeQuantum_2_end by auto.
      rewrite !decodeLoop_nil. reflexivity.
    + rewrite !append_String, append_Empty. cbn [decodeLoop].
      rewrite decodeQuantum_3_pad, decodeQuantum_3_end by auto.
      rewrite !decodeLoop_nil. reflexivity.
Qed.

(** Padding a segment that has a part of its padding completes it. *)
Lemma repad_partial (body pad pad1 pad2 : string) :
  completes body pad -> pad = (pad1 ++ pad2)%string ->
  repad (body ++ pad1) = (body ++ pad)%string.
Proof.
  intros Hc Hp. unfold repad. rewrite length_append, Nat2Z.inj_add.
  rewrite Z.add_mod by lia.
  destruct Hc as [(Hm & ->) | [(Hm & ->) | (Hm & ->)]]; rewrite Hm;
    destruct pad1 as [|d1 [|d2 [|d3 pad1]]];
    rewrite ?append_String, ?append_Empty in Hp;
    try discriminate Hp;
    repeat match goal with
           | H : String _ _ = String _ _ |- _ => injection H as <- H
           end;
    subst; try discriminate; cbn [String.length];
    try reflexivity.
  all: match goal with
       | |- context [if ?c then _ else _] =>
           let b := eval vm_compute in c in change c with b; cbv iota
       end;
    try reflexivity;
    rewrite append_assoc; reflexivity.
Qed.

(** X4.  In the legacy mode a valid segment decodes, with all of its
    padding, a part of it or none, to exactly what the standard mode
    returns on the segment without padding. *)
Theorem DecodeSegment_legacy_completes (body pad pad1 pad2 : string) :
  unpaddedSegment body -> completes body pad -> pad = (pad1 ++ pad2)%string ->
  jwt.DecodeSegment true (body ++ pad1) = jwt.DecodeSegment false body.
Proof.
  intros (Hb & _) Hc Hp. unfold jwt.DecodeSegment.
  fold (repad (body ++ pad1)). rewrite (repad_partial body pad pad1 pad2 Hc Hp).
  unfold DecodeString.
  rewrite (decodeLoop_url_raw _ body pad 0 Hb Hc) by lia.
  apply decodeLoop_fuel_irrelevant; [rewrite length_append|]; lia.
Qed.

(** A segment of 4k+1 characters of the alphabet is refused, whether
    the input ends there or padding follows. *)
Lemma decodeLoop_one_mod4 (enc : Encoding) (fuel : nat) :
  encode enc = encodeURL ->
  forall (body tail : string) (si : Z),
    allInAlphabet body = true ->
    Z.of_nat (String.length body) mod 4 = 1 ->
    tail = EmptyString \/ (exists t, tail = String StdPadding t) ->
    (String.length body <= fuel)%nat ->
    snd (decodeLoop enc fuel (body ++ tail) si) <> None.
Proof.
  intros He. induction fuel as [|fuel IH]; intros body tail si Hb Hm Ht Hlen.
  - destruct body; [discriminate Hm | cbn [String.length] in Hlen; lia].
  - destruct body as [|c0 [|c1 [|c2 [|c3 body]]]]; alphabet;
      try (vm_compute in Hm; discriminate Hm).
    + rewrite append_String, append_Empty. cbn [decodeLoop]. unfold decodeQuantum.
      rewrite quantumLoop_char by auto. cbn [Nat.eqb].
      destruct Ht as [-> | (t & ->)].
      * cbn. discriminate.
      * rewrite quantumLoop_pad by auto.
        destruct (negb (isPad enc StdPadding)); cbn; discriminate.
    + rewrite !append_String. cbn [decodeLoop]. rewrite decodeQuantum_4 by auto.
      cbn [String.length] in Hlen, Hm. rewrite mod4_SSSS in Hm.
      specialize (IH body tail (si + 1 + 1 + 1 + 1) ltac:(assumption) Hm Ht ltac:(lia)).
      destruct (decodeLoop enc fuel (body ++ tail) (si + 1 + 1 + 1 + 1)).
      exact IH.
Qed.

Lemma repad_one_mod4 (seg : string) :
  Z.of_nat (String.length seg) mod 4 = 1 -> repad seg = (seg ++ "===")%string.
Proof. intros H. unfold repad. rewrite H. reflexivity. Qed.

(** X5.  Among the segments made of characters of the alphabet, the
    ones [DecodeSegment] accepts, in either mode, are exactly those whose
    length is not 4k+1. *)
Theorem DecodeSegment_accepts_iff (DecodePaddingAllowed : bool) (seg : string) :
  allInAlphabet seg = true ->
  (snd (jwt.DecodeSegment DecodePaddingAllowed seg) = None <->
   Z.of_nat (String.length seg) mod 4 <> 1).
Proof.
  intros Hb. split.
  - intros Hok Hm. revert Hok. unfold jwt.DecodeSegment.
    destruct DecodePaddingAllowed.
    + fold (repad seg). rewrite (repad_one_mod4 seg Hm). unfold DecodeString.
      apply decodeLoop_one_mod4; auto.
      * right. eexists. reflexivity.
      * rewrite length_append. lia.
    + unfold DecodeString. rewrite <- (append_nil_r seg) at 2.
      apply decodeLoop_one_mod4; auto.
  - intros Hm. assert (unpaddedSegment seg) as Hu by (split; assumption).
    unfold jwt.DecodeSegment. destruct DecodePaddingAllowed.
    + fold (repad seg).
      destruct (repad_completes seg Hu) as (pad & -> & Hc).
      apply decodeLoop_url_ok; [assumption | assumption | lia].
    + apply decodeLoop_raw_ok; [assumption | lia].
Qed.

Lemma decodeLoop_raw_length (fuel : nat) :
  forall (seg : string) (si : Z),
    unpaddedSegment seg -> (String.length seg <= fuel)%nat ->
    Z.of_nat (length (fst (decodeLoop RawURLEncoding fuel seg si))) =
      Z.of_nat (String.length seg) * 6 / 8.
Proof.
  induction fuel as [|fuel IH]; intros seg si (Hb & Hm) Hlen.
  - destruct seg; [reflexivity | cbn in Hlen; lia].
  - destruct seg as [|c0 [|c1 [|c2 [|c3 seg]]]]; alphabet.
    + reflexivity.
    + exfalso. apply Hm. reflexivity.
    + cbn [decodeLoop]. rewrite decodeQuantum_2_end by auto.
      rewrite decodeLoop_nil. reflexivity.
    + cbn [decodeLoop]. rewrite decodeQuantum_3_end by auto.
      rewrite decodeLoop_nil. reflexivity.
    + cbn [decodeLoop]. rewrite decodeQuantum_4 by auto.
      cbn [String.length] in Hlen, Hm. rewrite mod4_SSSS in Hm.
      assert (unpaddedSegment seg) as Hu by (split; assumption).
      specialize (IH seg (si + 1 + 1 + 1 + 1) Hu ltac:(lia)).
      destruct (decodeLoop RawURLEncoding fuel seg (si + 1 + 1 + 1 + 1)) as [out err].
      cbn [fst app length String.length] in *.
      rewrite !Nat2Z.inj_succ, IH. Z.div_mod_to_equations. lia.
Qed.

(** X6.  A valid unpadded segment of n characters decodes, in either
    mode, to exactly n*6/8 bytes (rounded down). *)
Theorem DecodeSegment_length (DecodePaddingAllowed : bool) (seg : string) :
  unpaddedSegment seg ->
  Z.of_nat (length (fst (jwt.DecodeSegment DecodePaddingAllowed seg))) =
    Z.of_nat (String.length seg) * 6 / 8.
Proof.
  intros Hu.
  assert (jwt.DecodeSegment DecodePaddingAllowed seg = jwt.DecodeSegment false seg) as ->.
  { destruct DecodePaddingAllowed; [|reflexivity].
    unfold jwt.DecodeSegment. fold (repad seg).
    destruct (repad_completes seg Hu) as (pad & -> & Hc).
    unfold DecodeString.
    rewrite (decodeLoop_url_raw _ seg pad 0 (proj1 Hu) Hc) by lia.
    apply decodeLoop_fuel_irrelevant; [rewrite length_append|]; lia. }
  unfold jwt.DecodeSegment, DecodeString. apply decodeLoop_raw_length; [assumption | lia].
Qed.

(** ** Characters outside the alphabet *)

Lemma skipNewlines_foreign (enc : Encoding) (src : string) (si : Z) :
  hasForeign enc (fst (skipNewlines src si)) = hasForeign enc src.
Proof.
  revert si. induction src as [|c src IH]; intros si; [reflexivity|].
  cbn [skipNewlines]. destruct (isNewline c) eqn:Hn; [|reflexivity].
  rewrite IH. cbn [hasForeign]. unfold foreign. rewrite Hn.
  rewrite andb_false_r. reflexivity.
Qed.

Lemma afterPadding_foreign (enc : Encoding) (src : string) (si : Z) (dbuf : list Z)
    (j : nat) :
  hasForeign enc src = true -> stuck enc (afterPadding src si dbuf j).
Proof.
  intros H. unfold afterPadding.
  rewrite <- (skipNewlines_foreign enc src si) in H.
  destruct (skipNewlines src si) as [[|c rest] si']; cbn [fst] in H.
  - discriminate H.
  - left. discriminate.
Qed.

Lemma quantumLoop_foreign (enc : Encoding) (src : string) :
  hasForeign enc src = true ->
  forall (si : Z) (j : nat) (dbuf : list Z), stuck enc (quantumLoop enc src si j dbuf).
Proof.
  induction src as [|c src IH]; intros H si j dbuf; [discriminate H|].
  cbn [hasForeign] in H. unfold foreign in H. cbn [quantumLoop].
  destruct (decodeMap enc c =? 255); cbn [negb andb orb] in *.
  - destruct (isNewline c); cbn [negb andb orb] in H; [apply IH; exact H|].
    destruct (isPad enc c) eqn:Hp; cbn [negb orb] in *; [|discriminate].
    destruct j as [|[|[|j]]]; try (cbn [stuck]; discriminate).
    + pose proof (skipNewlines_foreign enc src (si + 1)) as Hs. rewrite H in Hs.
      destruct (skipNewlines src (si + 1)) as [[|c2 rest2] si']; cbn [fst] in Hs;
        [discriminate Hs|].
      cbn [hasForeign] in Hs. unfold foreign in Hs.
      destruct (isPad enc c2); cbn [negb]; [|cbn [stuck]; discriminate].
      rewrite andb_false_r in Hs. apply afterPadding_foreign. exact Hs.
    + apply afterPadding_foreign. exact H.
  - destruct (Nat.eqb (S j) 4); [|apply IH; exact H].
    right. split; [reflexivity | exact H].
Qed.

Lemma decodeLoop_foreign (enc : Encoding) (fuel : nat) :
  strict enc = false ->
  forall (src : string) (si : Z),
    hasForeign enc src = true -> (String.length src <= fuel)%nat ->
    snd (decodeLoop enc fuel src si) <> None.
Proof.
  intros Hs. induction fuel as [|fuel IH]; intros src si H Hlen.
  - destruct src; [discriminate H | cbn in Hlen; lia].
  - destruct src as [|c src]; [discriminate H|].
    cbn [decodeLoop String.length] in *.
    pose proof (decodeQuantum_length enc c src si) as Hq.
    pose proof (quantumLoop_foreign enc (String c src) H si 0 []) as Hk.
    unfold decodeQuantum in *.
    destruct (quantumLoop enc (String c src) si 0 []) as [n rest e | n rest dbuf dlen e];
      cbn [stuck] in Hk.
    + destruct e; [cbn; discriminate | congruence].
    + assert (forall out, snd (let '(out', err') := decodeLoop enc fuel rest n in
                               ((out ++ out')%list, err')) <> None
                          \/ e <> None) as Hrec.
      { intros out. destruct Hk as [Hk | (-> & Hk)]; [right; exact Hk|].
        left. cbn [fst] in Hq.
        specialize (IH rest n Hk ltac:(lia)).
        destruct (decodeLoop enc fuel rest n). exact IH. }
      rewrite Hs. cbn [andb].
      destruct dlen as [|[|[|[|[|dlen]]]]];
        (destruct e as [e|]; [cbn; discriminate|]);
        match goal with
        | |- context [decodeLoop enc fuel rest n] =>
            match goal with
            | |- snd (let '(out', err') := _ in ((?o ++ out')%list, err')) <> None =>
                destruct (Hrec o) as [Hr | Hr]; [exact Hr | congruence]
            end
        end.
Qed.

Lemma hasForeign_app (enc : Encoding) (s1 s2 : string) :
  hasForeign enc s1 = true -> hasForeign enc (s1 ++ s2) = true.
Proof.
  induction s1 as [|c s1 IH]; intros H; [discriminate H|].
  rewrite append_String. cbn [hasForeign] in *.
  destruct (foreign enc c); [reflexivity|]. apply IH. exact H.
Qed.

Lemma hasForeign_In (enc : Encoding) (s : string) (c : ascii) :
  In c (list_ascii_of_string s) -> foreign enc c = true -> hasForeign enc s = true.
Proof.
  induction s as [|d s IH]; cbn [list_ascii_of_string In hasForeign]; [tauto|].
  intros [-> | Hin] Hf; [rewrite Hf; reflexivity|].
  rewrite (IH Hin Hf). apply orb_true_r.
Qed.

(** X7.  A segment with a character that is neither in the URL alphabet
    nor a line break is refused in the standard mode; unless that
    character is [=], it is refused in the legacy mode too.  So the
    characters [+] and [/] of the standard alphabet, a dot or a blank make
    a segment invalid, wherever they stand. *)
Theorem DecodeSegment_foreign_character (seg : string) (c : ascii) :
  In c (list_ascii_of_string seg) ->
  inAlphabet c = false -> isNewline c = false ->
  snd (jwt.DecodeSegment false seg) <> None /\
  (c <> "="%char -> snd (jwt.DecodeSegment true seg) <> None).
Proof.
  intros Hin Ha Hn. unfold inAlphabet in Ha. apply negb_false_iff in Ha.
  split.
  - unfold jwt.DecodeSegment, DecodeString.
    apply decodeLoop_foreign; [reflexivity | | lia].
    apply (hasForeign_In _ seg c Hin). unfold foreign.
    rewrite (decodeMap_urlLike RawURLEncoding) by reflexivity.
    rewrite Ha, Hn. reflexivity.
  - intros Hc. unfold jwt.DecodeSegment. fold (repad seg).
    unfold DecodeString. apply decodeLoop_foreign; [reflexivity | | lia].
    assert (hasForeign URLEncoding seg = true) as Hf.
    { apply (hasForeign_In _ seg c Hin). unfold foreign. rewrite Ha, Hn.
      unfold isPad. cbn [padChar URLEncoding].
      destruct (Ascii.eqb_spec c StdPadding) as [-> | _]; [contradiction|reflexivity]. }
    unfold repad. destruct (0 <? _); [apply hasForeign_app|]; exact Hf.
Qed.

(** ** Encoding what the decoder read *)

Lemma Z_of_byte_of_Z (v : Z) : Z_of_byte (byte_of_Z v) = v mod 2 ^ 8.
Proof.
  unfold byte_of_Z, Z_of_byte. change 256 with (2 ^ 8).
  pose proof (Z.mod_pos_bound v (2 ^ 8) ltac:(lia)) as Hr.
  remember (v mod 2 ^ 8) as m eqn:Hm. clear Hm. change (2 ^ 8) with 256 in Hr.
  destruct (Byte.of_N (Z.to_N m)) as [b|] eqn:Hb.
  - apply Byte.to_of_N in Hb. rewrite Hb. lia.
  - exfalso. apply Byte.of_N_None_iff in Hb. lia.
Qed.

(** Equality of two sextets given by bit operations, bit by bit. *)
Ltac sextet_bits :=
  apply Z.bits_inj'; intros ?i ?Hi;
  rewrite !(Z.testbit_mod_pow2 _ 6) by lia;
  match goal with
  | |- (?i <? 6) && _ = _ =>
      destruct (Z.ltb_spec i 6); [ | reflexivity ];
      assert (i = 0 \/ i = 1 \/ i = 2 \/ i = 3 \/ i = 4 \/ i = 5) as Hcases by lia;
      repeat (destruct Hcases as [-> | Hcases]); try subst i;
      bit_rewrite; simpl;
      rewrite ?andb_true_r, ?andb_false_r, ?orb_false_r, ?orb_true_r;
      reflexivity
  end.

Ltac sextet_goal :=
  cbv zeta; unfold pack3, pack4, sextet;
  change 63 with (Z.ones 6); rewrite ?Z.land_ones by lia; sextet_bits.

Lemma reencode4_0 (x0 x1 x2 x3 : Z) :
  let val := pack4 (x0 mod 2 ^ 6) (x1 mod 2 ^ 6) (x2 mod 2 ^ 6) (x3 mod 2 ^ 6) in
  let val' := pack3 (Z.shiftr val 16 mod 2 ^ 8) (Z.shiftr val 8 mod 2 ^ 8)
                    (Z.shiftr val 0 mod 2 ^ 8) in
  sextet val' 18 = x0 mod 2 ^ 6.
Proof. sextet_goal. Qed.

Lemma reencode4_1 (x0 x1 x2 x3 : Z) :
  let val := pack4 (x0 mod 2 ^ 6) (x1 mod 2 ^ 6) (x2 mod 2 ^ 6) (x3 mod 2 ^ 6) in
  let val' := pack3 (Z.shiftr val 16 mod 2 ^ 8) (Z.shiftr val 8 mod 2 ^ 8)
                    (Z.shiftr val 0 mod 2 ^ 8) in
  sextet val' 12 = x1 mod 2 ^ 6.
Proof. sextet_goal. Qed.

Lemma reencode4_2 (x0 x1 x2 x3 : Z) :
  let val := pack4 (x0 mod 2 ^ 6) (x1 mod 2 ^ 6) (x2 mod 2 ^ 6) (x3 mod 2 ^ 6) in
  let val' := pack3 (Z.shiftr val 16 mod 2 ^ 8) (Z.shiftr val 8 mod 2 ^ 8)
                    (Z.shiftr val 0 mod 2 ^ 8) in
  sextet val' 6 = x2 mod 2 ^ 6.
Proof. sextet_goal. Qed.

Lemma reencode4_3 (x0 x1 x2 x3 : Z) :
  let val := pack4 (x0 mod 2 ^ 6) (x1 mod 2 ^ 6) (x2 mod 2 ^ 6) (x3 mod 2 ^ 6) in
  let val' := pack3 (Z.shiftr val 16 mod 2 ^ 8) (Z.shiftr val 8 mod 2 ^ 8)
                    (Z.shiftr val 0 mod 2 ^ 8) in
  Z.land val' 63 = x3 mod 2 ^ 6.
Proof. sextet_goal. Qed.

Lemma reencode3_0 (x0 x1 x2 : Z) :
  let val := pack4 (x0 mod 2 ^ 6) (x1 mod 2 ^ 6) (x2 mod 2 ^ 6) 0 in
  let val' := Z.lor (Z.shiftl (Z.shiftr val 16 mod 2 ^ 8) 16)
                    (Z.shiftl (Z.shiftr val 8 mod 2 ^ 8) 8) in
  sextet val' 18 = x0 mod 2 ^ 6.
Proof. sextet_goal. Qed.

Lemma reencode3_1 (x0 x1 x2 : Z) :
  let val := pack4 (x0 mod 2 ^ 6) (x1 mod 2 ^ 6) (x2 mod 2 ^ 6) 0 in
  let val' := Z.lor (Z.shiftl (Z.shiftr val 16 mod 2 ^ 8) 16)
                    (Z.shiftl (Z.shiftr val 8 mod 2 ^ 8) 8) in
  sextet val' 12 = x1 mod 2 ^ 6.
Proof. sextet_goal. Qed.

Lemma reencode3_2 (x0 x1 x2 : Z) :
  let val := pack4 (x0 mod 2 ^ 6) (x1 mod 2 ^ 6) (x2 mod 2 ^ 6) 0 in
  let val' := Z.lor (Z.shiftl (Z.shiftr val 16 mod 2 ^ 8) 16)
                    (Z.shiftl (Z.shiftr val 8 mod 2 ^ 8) 8) in
  sextet val' 6 = Z.land (x2 mod 2 ^ 6) 60 mod 2 ^ 6.
Proof. sextet_goal. Qed.

Lemma reencode2_0 (x0 x1 : Z) :
  let val := pack4 (x0 mod 2 ^ 6) (x1 mod 2 ^ 6) 0 0 in
  let val' := Z.shiftl (Z.shiftr val 16 mod 2 ^ 8) 16 in
  sextet val' 18 = x0 mod 2 ^ 6.
Proof. sextet_goal. Qed.

Lemma reencode2_1 (x0 x1 : Z) :
  let val := pack4 (x0 mod 2 ^ 6) (x1 mod 2 ^ 6) 0 0 in
  let val' := Z.shiftl (Z.shiftr val 16 mod 2 ^ 8) 16 in
  sextet val' 12 = Z.land (x1 mod 2 ^ 6) 48 mod 2 ^ 6.
Proof. sextet_goal. Qed.

Lemma dm_range (c : ascii) : inAlphabet c = true -> 0 <= dm c < 2 ^ 6.
Proof. intros H. apply inAlphabet_spec in H. change (2 ^ 6) with 64. tauto. Qed.

Lemma encodeAt_dm (c : ascii) :
  inAlphabet c = true -> encodeAt RawURLEncoding (dm c) = c.
Proof.
  unfold inAlphabet.
  destruct c as [[] [] [] [] [] [] [] []]; vm_compute; intros H;
    first [ discriminate H | reflexivity ].
Qed.

(** The third character of a last block of three is written back iff
    its low two bits are zero; the second of a last block of two iff its
    low four bits are. *)
Lemma last_of_3_iff (c : ascii) :
  inAlphabet c = true ->
  (encodeAt RawURLEncoding (Z.land (dm c) 60) = c <-> Z.land (dm c) 3 = 0).
Proof.
  unfold inAlphabet.
  destruct c as [[] [] [] [] [] [] [] []]; vm_compute; intros H;
    first [ discriminate H | split; intros E; first [ reflexivity | discriminate E ] ].
Qed.

Lemma last_of_2_iff (c : ascii) :
  inAlphabet c = true ->
  (encodeAt RawURLEncoding (Z.land (dm c) 48) = c <-> Z.land (dm c) 15 = 0).
Proof.
  unfold inAlphabet.
  destruct c as [[] [] [] [] [] [] [] []]; vm_compute; intros H;
    first [ discriminate H | split; intros E; first [ reflexivity | discriminate E ] ].
Qed.

Lemma land_mask_mod (s m : Z) :
  Z.land m (Z.ones 6) = m -> Z.land s m mod 2 ^ 6 = Z.land s m.
Proof.
  intros Hm. rewrite <- Z.land_ones by lia. rewrite <- Z.land_assoc, Hm. reflexivity.
Qed.

Ltac use_reencode L :=
  let E := fresh "E" in
  pose proof L as E; cbv zeta in E; unfold sextet, pack3 in E;
  repeat match type of E with
         | context [decodeMap URLEncoding ?c mod 2 ^ 6] =>
             rewrite (Z.mod_small (decodeMap URLEncoding c) (2 ^ 6)) in E
               by (apply dm_range; assumption)
         end;
  rewrite ?(land_mask_mod _ 60), ?(land_mask_mod _ 48) in E by reflexivity;
  rewrite E; clear E.

Lemma EncodeToString_quantum_4 (c0 c1 c2 c3 : ascii) (l : list byte) :
  inAlphabet c0 = true -> inAlphabet c1 = true ->
  inAlphabet c2 = true -> inAlphabet c3 = true ->
  EncodeToString RawURLEncoding
    (byte0 (dm c0) (dm c1) (dm c2) (dm c3) :: byte1 (dm c0) (dm c1) (dm c2) (dm c3)
     :: byte2 (dm c0) (dm c1) (dm c2) (dm c3) :: l) =
  String c0 (String c1 (String c2 (String c3 (EncodeToString RawURLEncoding l)))).
Proof.
  intros H0 H1 H2 H3. cbn [EncodeToString]. unfold byte0, byte1, byte2.
  rewrite !Z_of_byte_of_Z.
  use_reencode (reencode4_0 (dm c0) (dm c1) (dm c2) (dm c3)).
  use_reencode (reencode4_1 (dm c0) (dm c1) (dm c2) (dm c3)).
  use_reencode (reencode4_2 (dm c0) (dm c1) (dm c2) (dm c3)).
  use_reencode (reencode4_3 (dm c0) (dm c1) (dm c2) (dm c3)).
  rewrite !encodeAt_dm by assumption. reflexivity.
Qed.

Lemma EncodeToString_quantum_3 (c0 c1 c2 : ascii) :
  inAlphabet c0 = true -> inAlphabet c1 = true -> inAlphabet c2 = true ->
  EncodeToString RawURLEncoding
    [byte0 (dm c0) (dm c1) (dm c2) 0; byte1 (dm c0) (dm c1) (dm c2) 0] =
  String c0 (String c1 (String (encodeAt RawURLEncoding (Z.land (dm c2) 60))
                               EmptyString)).
Proof.
  intros H0 H1 H2. cbn [EncodeToString]. unfold byte0, byte1.
  rewrite !Z_of_byte_of_Z.
  use_reencode (reencode3_0 (dm c0) (dm c1) (dm c2)).
  use_reencode (reencode3_1 (dm c0) (dm c1) (dm c2)).
  use_reencode (reencode3_2 (dm c0) (dm c1) (dm c2)).
  rewrite !encodeAt_dm by assumption. reflexivity.
Qed.

Lemma EncodeToString_quantum_2 (c0 c1 : ascii) :
  inAlphabet c0 = true -> inAlphabet c1 = true ->
  EncodeToString RawURLEncoding [byte0 (dm c0) (dm c1) 0 0] =
  String c0 (String (encodeAt RawURLEncoding (Z.land (dm c1) 48)) EmptyString).
Proof.
  intros H0 H1. cbn [EncodeToString]. unfold byte0.
  rewrite !Z_of_byte_of_Z.
  use_reencode (reencode2_0 (dm c0) (dm c1)).
  use_reencode (reencode2_1 (dm c0) (dm c1)).
  rewrite !encodeAt_dm by assumption. reflexivity.
Qed.

Lemma reencode_iff (fuel : nat) :
  forall (seg : string) (si : Z),
    unpaddedSegment seg -> (String.length seg <= fuel)%nat ->
    (EncodeToString RawURLEncoding (fst (decodeLoop RawURLEncoding fuel seg si)) = seg
     <-> canonical seg).
Proof.
  induction fuel as [|fuel IH]; intros seg si (Hb & Hm) Hlen.
  - destruct seg; [cbn; tauto | cbn in Hlen; lia].
  - destruct seg as [|c0 [|c1 [|c2 [|c3 seg]]]]; alphabet.
    + cbn. tauto.
    + exfalso. apply Hm. reflexivity.
    + cbn [decodeLoop]. rewrite decodeQuantum_2_end by auto.
      rewrite decodeLoop_nil. cbn [fst app canonical].
      rewrite EncodeToString_quantum_2 by assumption.
      rewrite <- (last_of_2_iff c1) by assumption.
      split; [intros [= E]; exact E | intros ->; reflexivity].
    + cbn [decodeLoop]. rewrite decodeQuantum_3_end by auto.
      rewrite decodeLoop_nil. cbn [fst app canonical].
      rewrite EncodeToString_quantum_3 by assumption.
      rewrite <- (last_of_3_iff c2) by assumption.
      split; [intros [= E]; exact E | intros ->; reflexivity].
    + cbn [decodeLoop]. rewrite decodeQuantum_4 by auto.
      cbn [String.length] in Hlen, Hm. rewrite mod4_SSSS in Hm.
      assert (unpaddedSegment seg) as Hu by (split; assumption).
      specialize (IH seg (si + 1 + 1 + 1 + 1) Hu ltac:(lia)).
      destruct (decodeLoop RawURLEncoding fuel seg (si + 1 + 1 + 1 + 1)) as [out err].
      cbn [fst app canonical] in *.
      rewrite EncodeToString_quantum_4 by assumption.
      rewrite <- IH.
      split; [intros [= E]; exact E | intros ->; reflexivity].
Qed.

(** The two modes agree on a valid unpadded segment. *)
Lemma DecodeSegment_modes_agree (seg : string) :
  unpaddedSegment seg -> jwt.DecodeSegment true seg = jwt.DecodeSegment false seg.
Proof.
  intros Hu. unfold jwt.DecodeSegment. fold (repad seg).
  destruct (repad_completes seg Hu) as (pad & -> & Hc).
  unfold DecodeString.
  rewrite (decodeLoop_url_raw _ seg pad 0 (proj1 Hu) Hc) by lia.
  apply decodeLoop_fuel_irrelevant; [rewrite length_append|]; lia.
Qed.

(** X8.  In either padding mode, encoding the bytes a valid unpadded
    segment decodes to gives the segment back exactly when the segment
    is canonical, that is when its last character carries no bits beyond
    the last whole byte. *)
Theorem EncodeSegment_DecodeSegment (DecodePaddingAllowed : bool) (seg : string) :
  unpaddedSegment seg ->
  (jwt.EncodeSegment (fst (jwt.DecodeSegment DecodePaddingAllowed seg)) = seg
   <-> canonical seg).
Proof.
  intros Hu.
  assert (jwt.DecodeSegment DecodePaddingAllowed seg = jwt.DecodeSegment false seg) as ->.
  { destruct DecodePaddingAllowed; [apply DecodeSegment_modes_agree; exact Hu | reflexivity]. }
  unfold jwt.EncodeSegment, jwt.DecodeSegment, DecodeString.
  apply reencode_iff; [exact Hu | lia].
Qed.

(** ** Line breaks in the standard mode *)

Lemma isNewline_not_inAlphabet (c : ascii) :
  isNewline c = true -> (decodeMap RawURLEncoding c =? 255) = true.
Proof.
  destruct (decodeMap RawURLEncoding c =? 255) eqn:Hd; [reflexivity|].
  intros Hn. assert (inAlphabet c = true) as Ha.
  { unfold inAlphabet. rewrite <- (decodeMap_urlLike RawURLEncoding) by reflexivity.
    rewrite Hd. reflexivity. }
  apply inAlphabet_spec in Ha. destruct Ha as (_ & Ha & _). congruence.
Qed.

Lemma quantumLoop_strip (src : string) :
  forall (si si' : Z) (j : nat) (dbuf : list Z),
    exitSim (quantumLoop RawURLEncoding src si j dbuf)
            (quantumLoop RawURLEncoding (stripNewlines src) si' j dbuf).
Proof.
  induction src as [|c src IH]; intros si si' j dbuf.
  - cbn [stripNewlines quantumLoop]. destruct j as [|j]; [cbn; tauto|].
    destruct (Nat.eqb (S j) 1 || hasPadding RawURLEncoding); cbn.
    + split; [reflexivity|]. split; discriminate.
    + tauto.
  - cbn [stripNewlines]. destruct (isNewline c) eqn:Hn.
    + cbn [quantumLoop]. rewrite (isNewline_not_inAlphabet c Hn), Hn. cbn [negb].
      apply IH.
    + cbn [quantumLoop]. rewrite Hn.
      destruct (negb (decodeMap RawURLEncoding c =? 255)).
      * destruct (Nat.eqb (S j) 4); [cbn; tauto | apply IH].
      * cbn. split; [reflexivity|]. split; discriminate.
Qed.

Lemma decodeQuantum_strip (src : string) (si si' : Z) :
  let '(r1, _, o1, e1) := decodeQuantum RawURLEncoding src si in
  let '(r2, _, o2, e2) := decodeQuantum RawURLEncoding (stripNewlines src) si' in
  r2 = stripNewlines r1 /\ o1 = o2 /\ (e1 = None <-> e2 = None).
Proof.
  unfold decodeQuantum. pose proof (quantumLoop_strip src si si' 0 []) as H.
  destruct (quantumLoop RawURLEncoding src si 0 []) as [n1 r1 e1 | n1 r1 d1 k1 e1];
    destruct (quantumLoop RawURLEncoding (stripNewlines src) si' 0 [])
      as [n2 r2 e2 | n2 r2 d2 k2 e2]; cbn [exitSim] in H; try contradiction.
  - tauto.
  - destruct H as (-> & -> & -> & -> & ->).
    destruct k2 as [|[|[|[|[|k2]]]]]; cbn [strict RawURLEncoding WithPadding URLEncoding andb];
      tauto.
Qed.

Lemma stripNewlines_length (s : string) :
  (String.length (stripNewlines s) <= String.length s)%nat.
Proof.
  induction s as [|c s IH]; [reflexivity|]. cbn [stripNewlines].
  destruct (isNewline c); cbn [String.length]; lia.
Qed.

Lemma decodeLoop_strip (fuel1 : nat) :
  forall (fuel2 : nat) (src : string) (si si' : Z),
    (String.length src <= fuel1)%nat ->
    (String.length (stripNewlines src) <= fuel2)%nat ->
    sameOutcome (decodeLoop RawURLEncoding fuel1 src si)
                (decodeLoop RawURLEncoding fuel2 (stripNewlines src) si').
Proof.
  induction fuel1 as [|fuel1 IH]; intros fuel2 src si si' H1 H2.
  - destruct src; [|cbn in H1; lia]. cbn [stripNewlines].
    rewrite !decodeLoop_nil. split; [reflexivity | tauto].
  - destruct src as [|c src].
    { cbn [stripNewlines]. rewrite !decodeLoop_nil. split; [reflexivity | tauto]. }
    cbn [decodeLoop]. cbn [String.length] in H1.
    pose proof (decodeQuantum_length RawURLEncoding c src si) as Hq1.
    pose proof (decodeQuantum_strip (String c src) si si') as Hs.
    destruct (decodeQuantum RawURLEncoding (String c src) si) as [[[r1 n1] o1] e1].
    cbn [fst] in Hq1.
    destruct (stripNewlines (String c src)) as [|c' s'] eqn:Es.
    + cbn in Hs. destruct Hs as (Hr & -> & He).
      rewrite decodeLoop_nil.
      destruct e1 as [e1|]; [exfalso; destruct He as [_ He]; discriminate (He eq_refl)|].
      specialize (IH 0%nat r1 n1 0 ltac:(lia)). rewrite <- Hr in IH.
      specialize (IH ltac:(cbn; lia)). rewrite decodeLoop_nil in IH.
      destruct (decodeLoop RawURLEncoding fuel1 r1 n1) as [out err].
      exact IH.
    + destruct fuel2 as [|fuel2]; [cbn in H2; lia|].
      cbn [decodeLoop]. cbn [String.length] in H2.
      pose proof (decodeQuantum_length RawURLEncoding c' s' si') as Hq2.
      destruct (decodeQuantum RawURLEncoding (String c' s') si') as [[[r2 n2] o2] e2].
      cbn [fst] in Hq2. destruct Hs as (-> & <- & He).
      destruct e1 as [e1|], e2 as [e2|].
      * split; [reflexivity|]. cbn. split; discriminate.
      * exfalso. destruct He as [_ He]. discriminate (He eq_refl).
      * exfalso. destruct He as [He _]. discriminate (He eq_refl).
      * specialize (IH fuel2 r1 n1 n2 ltac:(lia) ltac:(lia)).
        destruct (decodeLoop RawURLEncoding fuel1 r1 n1) as [out1 err1].
        destruct (decodeLoop RawURLEncoding fuel2 (stripNewlines r1) n2) as [out2 err2].
        destruct IH as [Ho He']. cbn [fst snd] in *. subst. split; [reflexivity | exact He'].
Qed.

(** X9.  In the standard mode line feeds and carriage returns inside a
    segment are skipped: with or without them the segment decodes to the
    same bytes and is refused in the same cases. *)
Theorem DecodeSegment_skips_newlines (seg : string) :
  fst (jwt.DecodeSegment false seg) = fst (jwt.DecodeSegment false (stripNewlines seg)) /\
  (snd (jwt.DecodeSegment false seg) = None <->
   snd (jwt.DecodeSegment false (stripNewlines seg)) = None).
Proof.
  unfold jwt.DecodeSegment, DecodeString.
  apply (decodeLoop_strip _ _ seg 0 0); lia.
Qed.

End base64_facts.

(** C2.  Decoding an encoded segment gives the bytes back, without
    error, whatever the value of [DecodePaddingAllowed]. *)
Theorem DecodeSegment_EncodeSegment (DecodePaddingAllowed : bool) (b : list byte) :
  jwt.DecodeSegment DecodePaddingAllowed (jwt.EncodeSegment b) = (b, None).
Proof.
  unfold jwt.DecodeSegment, jwt.EncodeSegment.
  destruct DecodePaddingAllowed.
  - fold (repad (base64.EncodeToString base64.RawURLEncoding b)).
    rewrite repad_EncodeToString.
    apply DecodeString_EncodeToString, urlLike_URLEncoding.
  - apply DecodeString_EncodeToString, urlLike_RawURLEncoding.
Qed.

(** C7.  An encoded segment is unpadded base64url: it is a valid unpadded
    segment (characters of the URL alphabet, of a length that encodes
    whole bytes) and none of its characters is the padding character [=].
    [EncodeSegment] does not read [DecodePaddingAllowed], so this holds for
    either value of the flag. *)
Theorem EncodeSegment_unpadded (DecodePaddingAllowed : bool) (b : list byte) :
  unpaddedSegment (jwt.EncodeSegment b) /\
  ~ In "="%char (list_ascii_of_string (jwt.EncodeSegment b)).
Proof.
  pose proof (EncodeSegment_unpaddedSegment b) as H.
  split; [exact H | apply allInAlphabet_no_pad, H].
Qed.

(** C3.  A valid segment with trailing padding is rejected when
    [DecodePaddingAllowed] is false and accepted when it is true; a valid
    segment without padding is accepted under both settings. *)
Theorem DecodeSegment_padding_modes (seg : string) :
  (paddedSegment seg ->
     snd (jwt.DecodeSegment false seg) <> None /\
     snd (jwt.DecodeSegment true seg) = None) /\
  (unpaddedSegment seg ->
     forall DecodePaddingAllowed : bool,
       snd (jwt.DecodeSegment DecodePaddingAllowed seg) = None).
Proof.
  split.
  - intros (body & pad & -> & Hb & Hne & Hc). split.
    + unfold jwt.DecodeSegment, base64.DecodeString.
      destruct pad as [|c pad]; [congruence|].
      assert (c = base64.StdPadding) as ->.
      { unfold base64.StdPadding.
        destruct Hc as [(_ & H) | [(_ & H) | (_ & H)]]; congruence. }
      apply decodeLoop_raw_pad; [assumption|].
      rewrite length_append. cbn [String.length]. lia.
    + unfold jwt.DecodeSegment.
      fold (repad (body ++ pad)). rewrite repad_padded by assumption.
      apply decodeLoop_url_ok; auto.
  - intros Hu [|]; unfold jwt.DecodeSegment.
    + fold (repad seg).
      destruct (repad_completes seg Hu) as (pad & -> & Hc).
      apply decodeLoop_url_ok; [apply Hu | assumption | lia].
    + apply decodeLoop_raw_ok; [assumption | lia].
Qed.

(** * Properties of tokens *)

Section token_facts.
Context {P : Platform}.
Import jwt.

(** C4.  A token made by [NewWithClaims] or [New] has a header with
    [typ] set to [JWT] and [alg] set to the method's identifier, and is
    not marked valid. *)
Theorem New_header_and_valid (method : SigningMethod) (claims : Claims) :
  (Header (NewWithClaims method claims) !! "typ" = Some (VString "JWT") /\
   Header (NewWithClaims method claims) !! "alg" = Some (VString (Alg method)) /\
   Valid (NewWithClaims method claims) = false) /\
  (Header (New method) !! "typ" = Some (VString "JWT") /\
   Header (New method) !! "alg" = Some (VString (Alg method)) /\
   Valid (New method) = false).
Proof.
  unfold New, NewWithClaims; cbn [Header Valid].
  repeat split; try reflexivity.
  all: first [ apply lookup_insert_eq
             | rewrite lookup_insert_ne by discriminate; apply lookup_insert_eq ].
Qed.

(** The signing input of a token whose header and claims serialize. *)
Lemma SigningString_ok (t : Token) (w : W) (hb cb : list byte) :
  json_Marshal (Header t) = (hb, None) ->
  json_Marshal_Claims (Claims_ t) = (cb, None) ->
  SigningString (t, w) =
    ((EncodeSegment hb ++ "." ++ EncodeSegment cb, None)%string, (t, w)).
Proof.
  intros Hh Hc. unfold SigningString, bind, field, ret. cbn [fst snd].
  rewrite Hh. cbv beta iota zeta. cbn [fst snd]. rewrite Hc. reflexivity.
Qed.

(** The signed string of a token whose header and claims serialize and
    whose method signs. *)
Lemma SignedString_value (t : Token) (key : any) (w w' : W) (hb cb : list byte)
    (sig : string) :
  json_Marshal (Header t) = (hb, None) ->
  json_Marshal_Claims (Claims_ t) = (cb, None) ->
  Sign (Method t) (EncodeSegment hb ++ "." ++ EncodeSegment cb) key w
    = ((sig, None), w') ->
  SignedString key (t, w) =
    (((EncodeSegment hb ++ "." ++ EncodeSegment cb) ++ "." ++ sig, None)%string,
     (t, w')).
Proof.
  intros Hh Hc Hs.
  unfold SignedString, bind. rewrite (SigningString_ok t w hb cb Hh Hc).
  unfold field, call, ret. cbn [fst snd]. rewrite Hs.
  reflexivity.
Qed.

(** C5.  When the header and the claims serialize and the method signs,
    [SignedString] returns the two encoded segments joined by a dot (the
    signing input, which is what [SigningString] returns and what the
    method signs), a dot, and the signature. *)
Theorem SignedString_ok (t : Token) (key : any) (w w' : W) (hb cb : list byte)
    (sig : string) :
  json_Marshal (Header t) = (hb, None) ->
  json_Marshal_Claims (Claims_ t) = (cb, None) ->
  Sign (Method t) (EncodeSegment hb ++ "." ++ EncodeSegment cb) key w
    = ((sig, None), w') ->
  SigningString (t, w) =
    ((EncodeSegment hb ++ "." ++ EncodeSegment cb, None)%string, (t, w)) /\
  SignedString key (t, w) =
    (((EncodeSegment hb ++ "." ++ EncodeSegment cb) ++ "." ++ sig, None)%string,
     (t, w')).
Proof.
  intros Hh Hc Hs. split.
  - apply SigningString_ok; assumption.
  - apply SignedString_value; assumption.
Qed.

(** The error of [SignedString], when there is one, is the error of
    the header's or of the claims' serialization, or the error of the
    method's [Sign] on the signing input; the string beside it is
    empty. *)
Lemma SignedString_error (t : Token) (key : any) (w : W) (s : string) (e : error) :
  fst (SignedString key (t, w)) = (s, Some e) ->
  s = EmptyString /\
  (snd (json_Marshal (Header t)) = Some e \/
   snd (json_Marshal_Claims (Claims_ t)) = Some e \/
   exists sstr : string,
     fst (SigningString (t, w)) = (sstr, None) /\
     snd (fst (Sign (Method t) sstr key w)) = Some e).
Proof.
  unfold SignedString, SigningString, bind, field, call, ret.
  cbn [fst snd].
  destruct (json_Marshal (Header t)) as [hb [e1|]]; cbn [fst snd].
  { intros [= <- <-]. auto. }
  destruct (json_Marshal_Claims (Claims_ t)) as [cb [e2|]]; cbn [fst snd].
  { intros [= <- <-]. auto. }
  destruct (Sign (Method t) (Join [EncodeSegment hb; EncodeSegment cb] ".") key w)
    as [[sig [e3|]] w'] eqn:Hs; cbn [fst snd].
  - intros [= <- <-]. split; [reflexivity|]. right; right.
    eexists. split; [reflexivity|]. rewrite Hs. reflexivity.
  - intros [= _ ?].
Qed.

(** C6.  Signing does not validate the claims: whatever the validation
    of the claims says at any reference time (an expired [exp], say), a
    token whose header and claims serialize and whose method signs is
    signed; an error of [SignedString] is the error of the header's or
    the claims' serialization or of the method's [Sign]; so it is a
    [ClaimsInvalidError] only if one of these three calls returned
    one. *)
Theorem SignedString_does_not_validate (t : Token) (key : any) (w : W) :
  (forall (now leeway : Z) (hb cb : list byte) (sig : string) (w' : W),
     validate (Claims_ t) now leeway <> None ->
     json_Marshal (Header t) = (hb, None) ->
     json_Marshal_Claims (Claims_ t) = (cb, None) ->
     Sign (Method t) (EncodeSegment hb ++ "." ++ EncodeSegment cb) key w
       = ((sig, None), w') ->
     fst (SignedString key (t, w)) =
       ((EncodeSegment hb ++ "." ++ EncodeSegment cb) ++ "." ++ sig, None)%string) /\
  (forall (s : string) (e : error),
     fst (SignedString key (t, w)) = (s, Some e) ->
     s = EmptyString /\
     (snd (json_Marshal (Header t)) = Some e \/
      snd (json_Marshal_Claims (Claims_ t)) = Some e \/
      exists sstr : string,
        fst (SigningString (t, w)) = (sstr, None) /\
        snd (fst (Sign (Method t) sstr key w)) = Some e)) /\
  (forall (s : string) (vs : list string),
     snd (json_Marshal (Header t)) <> Some (ClaimsInvalidError vs) ->
     snd (json_Marshal_Claims (Claims_ t)) <> Some (ClaimsInvalidError vs) ->
     (forall sstr, snd (fst (Sign (Method t) sstr key w)) <> Some (ClaimsInvalidError vs)) ->
     fst (SignedString key (t, w)) <> (s, Some (ClaimsInvalidError vs))).
Proof.
  split; [|split].
  - intros now leeway hb cb sig w' _ Hh Hc Hs.
    rewrite (SignedString_value t key w w' hb cb sig Hh Hc Hs).
    reflexivity.
  - apply SignedString_error.
  - intros s vs Hh Hc Hs He.
    apply SignedString_error in He as (_ & [H | [H | (sstr & _ & H)]]).
    + exact (Hh H).
    + exact (Hc H).
    + exact (Hs sstr H).
Qed.

(** C9.  Neither [SigningString] nor [SignedString] changes the token it
    is called on: the token after the call is the token before, field by
    field; signing fills in neither [Signature] nor [Valid]. *)
Theorem signing_leaves_token (t : Token) (key : any) (w : W) :
  fst (snd (SigningString (t, w))) = t /\
  fst (snd (SignedString key (t, w))) = t /\
  Signature (fst (snd (SignedString key (t, w)))) = Signature t /\
  Valid (fst (snd (SignedString key (t, w)))) = Valid t.
Proof.
  assert (fst (snd (SigningString (t, w))) = t /\
          snd (snd (SigningString (t, w))) = w) as [Hs Hw].
  { unfold SigningString, bind, field, ret. cbn [fst snd].
    destruct (json_Marshal (Header t)) as [hb [e1|]]; cbn [fst snd]; [auto|].
    destruct (json_Marshal_Claims (Claims_ t)) as [cb [e2|]]; cbn [fst snd]; auto. }
  assert (fst (snd (SignedString key (t, w))) = t) as H.
  { unfold SignedString, bind.
    destruct (SigningString (t, w)) as [[sstr [e|]] [t' w']]; cbn [fst snd] in *; subst.
    - reflexivity.
    - unfold field, call, ret. cbn [fst snd].
      destruct (Sign (Method t) sstr key w) as [[sig [e|]] w'']; reflexivity. }
  rewrite H. auto.
Qed.

(** C10.  [New] is [NewWithClaims] on an empty claims map: the same
    token, hence the same header, claims and method, and the same result
    of [SignedString] for any key in any state of the world. *)
Theorem New_is_NewWithClaims (method : SigningMethod) :
  New method = NewWithClaims method (MapClaims ∅) /\
  Header (New method) = Header (NewWithClaims method (MapClaims ∅)) /\
  Claims_ (New method) = MapClaims ∅ /\
  Method (New method) = method /\
  (forall (key : any) (w : W),
     SignedString key (New method, w) =
     SignedString key (NewWithClaims method (MapClaims ∅), w)).
Proof. repeat split. Qed.

(** ** Failures and shape of the signed string *)

(** X10.  When the header does not serialize, or the header does and
    the claims do not, [SigningString] and [SignedString] return the empty
    string with that error and leave the world as it was: the method's
    [Sign] is not called, and an error of the header comes before one of
    the claims. *)
Theorem SignedString_serialization_error (t : Token) (key : any) (w : W) (e : error) :
  snd (json_Marshal (Header t)) = Some e \/
  (snd (json_Marshal (Header t)) = None /\
   snd (json_Marshal_Claims (Claims_ t)) = Some e) ->
  SigningString (t, w) = ((EmptyString, Some e), (t, w)) /\
  SignedString key (t, w) = ((EmptyString, Some e), (t, w)).
Proof.
  intros H.
  assert (SigningString (t, w) = ((EmptyString, Some e), (t, w))) as Hs.
  { unfold SigningString, bind, field, ret. cbn [fst snd].
    destruct (json_Marshal (Header t)) as [hb [e1|]]; cbn [fst snd] in *.
    - destruct H as [[= ->] | [[=] _]]. reflexivity.
    - destruct H as [[=] | [_ H]].
      destruct (json_Marshal_Claims (Claims_ t)) as [cb [e2|]]; cbn [fst snd] in *;
        [injection H as -> | discriminate H]; reflexivity. }
  split; [exact Hs|].
  unfold SignedString, bind. rewrite Hs. reflexivity.
Qed.

(** X11.  When the header and the claims serialize and the method's
    [Sign] fails, [SignedString] returns the empty string with the
    method's error, whatever string [Sign] returned beside it; the world
    is as [Sign] left it. *)
Theorem SignedString_sign_error (t : Token) (key : any) (w w' : W) (hb cb : list byte)
    (sig : string) (e : error) :
  json_Marshal (Header t) = (hb, None) ->
  json_Marshal_Claims (Claims_ t) = (cb, None) ->
  Sign (Method t) (EncodeSegment hb ++ "." ++ EncodeSegment cb) key w
    = ((sig, Some e), w') ->
  SignedString key (t, w) = ((EmptyString, Some e), (t, w')).
Proof.
  intros Hh Hc Hs.
  unfold SignedString, bind. rewrite (SigningString_ok t w hb cb Hh Hc).
  unfold field, call, ret. cbn [fst snd]. rewrite Hs. reflexivity.
Qed.

Lemma Split_String_sep (sep : ascii) (s : string) :
  Split (String sep s) sep = EmptyString :: Split s sep.
Proof. cbn [Split]. rewrite Ascii.eqb_refl. reflexivity. Qed.

(** Splitting at the first separator. *)
Lemma Split_app (sep : ascii) (s t : string) :
  ~ In sep (list_ascii_of_string s) ->
  Split (s ++ String sep t) sep = s :: Split t sep.
Proof.
  induction s as [|c s IH]; intros Hn.
  - apply Split_String_sep.
  - change ((String c s ++ String sep t)%string) with (String c (s ++ String sep t)).
    cbn [Split]. cbn [list_ascii_of_string In] in Hn.
    destruct (Ascii.eqb_spec c sep) as [-> | _]; [tauto|].
    rewrite IH by tauto. reflexivity.
Qed.

Lemma Split_no_sep (sep : ascii) (s : string) :
  ~ In sep (list_ascii_of_string s) -> Split s sep = [s].
Proof.
  induction s as [|c s IH]; intros Hn; [reflexivity|].
  cbn [Split]. cbn [list_ascii_of_string In] in Hn.
  destruct (Ascii.eqb_spec c sep) as [-> | _]; [tauto|].
  rewrite IH by tauto. reflexivity.
Qed.

Lemma EncodeSegment_no_dot (b : list byte) :
  ~ In "."%char (list_ascii_of_string (EncodeSegment b)).
Proof.
  pose proof (allInAlphabet_EncodeToString b) as H. unfold EncodeSegment.
  induction (base64.EncodeToString base64.RawURLEncoding b) as [|c s IH];
    cbn [list_ascii_of_string In]; [tauto|].
  apply allInAlphabet_String in H as [Hc Hs].
  intros [-> | Hin]; [discriminate Hc | exact (IH Hs Hin)].
Qed.

Lemma string_app_assoc (s1 s2 s3 : string) :
  ((s1 ++ s2) ++ s3)%string = (s1 ++ (s2 ++ s3))%string.
Proof.
  induction s1 as [|c s1 IH]; [reflexivity|].
  change (String c ((s1 ++ s2) ++ s3)%string = String c (s1 ++ (s2 ++ s3))%string).
  rewrite IH. reflexivity.
Qed.

(** X12.  A signing string splits at its dot into the encoded header and
    the encoded claims, and a signed string into these two and what the
    signature splits into: three segments when the signature has no
    dot. *)
Theorem SignedString_segments (t : Token) (key : any) (w w' : W) (hb cb : list byte)
    (sig : string) :
  json_Marshal (Header t) = (hb, None) ->
  json_Marshal_Claims (Claims_ t) = (cb, None) ->
  Sign (Method t) (EncodeSegment hb ++ "." ++ EncodeSegment cb) key w
    = ((sig, None), w') ->
  Split (fst (fst (SigningString (t, w)))) "."%char
    = [EncodeSegment hb; EncodeSegment cb] /\
  Split (fst (fst (SignedString key (t, w)))) "."%char
    = EncodeSegment hb :: EncodeSegment cb :: Split sig "."%char /\
  (~ In "."%char (list_ascii_of_string sig) ->
   Split (fst (fst (SignedString key (t, w)))) "."%char
     = [EncodeSegment hb; EncodeSegment cb; sig]).
Proof.
  intros Hh Hc Hs.
  rewrite (SigningString_ok t w hb cb Hh Hc), (SignedString_value t key w w' hb cb sig Hh Hc Hs).
  cbn [fst].
  assert (Split (EncodeSegment hb ++ "." ++ EncodeSegment cb) "."%char
          = [EncodeSegment hb; EncodeSegment cb]) as H2.
  { change (EncodeSegment hb ++ "." ++ EncodeSegment cb)%string
      with (EncodeSegment hb ++ String "."%char (EncodeSegment cb))%string.
    rewrite Split_app by apply EncodeSegment_no_dot.
    rewrite Split_no_sep by apply EncodeSegment_no_dot. reflexivity. }
  assert (Split ((EncodeSegment hb ++ "." ++ EncodeSegment cb) ++ "." ++ sig) "."%char
          = EncodeSegment hb :: EncodeSegment cb :: Split sig "."%char) as H3.
  { change ((EncodeSegment hb ++ "." ++ EncodeSegment cb) ++ "." ++ sig)%string
      with ((EncodeSegment hb ++ String "."%char (EncodeSegment cb)) ++ String "."%char sig)%string.
    rewrite string_app_assoc.
    change (String "."%char (EncodeSegment cb) ++ String "."%char sig)%string
      with (String "."%char (EncodeSegment cb ++ String "."%char sig)).
    rewrite !Split_app by apply EncodeSegment_no_dot. reflexivity. }
  split; [exact H2|]. split; [exact H3|].
  intros Hn. rewrite H3, (Split_no_sep _ sig Hn). reflexivity.
Qed.

End token_facts.

(** * Properties of the request adapter *)

Section request_facts.
Context {P : Platform}.
Import request.

Lemma WithClaims_keepsExtractor (c : jwt.Claims) : keepsExtractor (WithClaims c).
Proof. intros p. reflexivity. Qed.

Lemma WithParser_keepsExtractor (q : jwt.Parser) : keepsExtractor (WithParser q).
Proof. intros p. reflexivity. Qed.

Lemma options_keep_extractor (options : list ParseFromRequestOption) :
  Forall keepsExtractor options ->
  forall p, extractor (fold_left (fun p option => option p) options p) = extractor p.
Proof.
  induction 1 as [|o options Ho _ IH]; intros p; cbn [fold_left]; [reflexivity|].
  rewrite IH. apply Ho.
Qed.

(** C8.  When the extractor returns an error, [ParseFromRequest] returns
    no token and that error, and leaves the world as the extractor left
    it, whatever the parser and the key function are: neither is
    called. *)
Theorem ParseFromRequest_extract_error
    (ParseWithClaims : jwt.Parser -> string -> jwt.Claims -> jwt.Keyfunc ->
                       jwt.Go (option jwt.Token * option error))
    (r : Request) (e : Extractor) (keyFunc : jwt.Keyfunc)
    (options : list ParseFromRequestOption) (w w' : W) (s : string) (err : error) :
  Forall keepsExtractor options ->
  ExtractToken e r w = ((s, Some err), w') ->
  ParseFromRequest ParseWithClaims r e keyFunc options w = ((None, Some err), w') /\
  (forall ParseWithClaims' (keyFunc' : jwt.Keyfunc),
     ParseFromRequest ParseWithClaims' r e keyFunc' options w = ((None, Some err), w')).
Proof.
  intros Ho He.
  assert (forall PWC (kf : jwt.Keyfunc),
            ParseFromRequest PWC r e kf options w = ((None, Some err), w')) as H.
  { intros PWC kf. unfold ParseFromRequest, bind.
    rewrite options_keep_extractor by assumption. cbn [extractor].
    rewrite He. reflexivity. }
  split; [apply H | exact H].
Qed.

(** ** Options in sequence *)

Lemma last_map_Some {A : Type} (l : list A) (d : A) :
  match List.last (map Some l) None with Some x => x | None => d end = List.last l d.
Proof.
  induction l as [|x l _] using rev_ind; [reflexivity|].
  rewrite map_app. cbn [map]. rewrite !List.last_last. reflexivity.
Qed.

Lemma fold_requestOptions (ks : list requestOptionKind) (p : fromRequestParser) :
  fold_left (fun p option => option p) (map requestOptionOf ks) p =
  {| req := req p; extractor := extractor p;
     claims := List.last (map Some (claimsArgs ks)) (claims p);
     parser := List.last (map Some (parserArgs ks)) (parser p) |}.
Proof.
  induction ks as [|k ks IH] using rev_ind.
  - destruct p. reflexivity.
  - rewrite map_app, fold_left_app. cbn [map fold_left].
    etransitivity; [apply (f_equal (requestOptionOf k)); exact IH|].
    unfold claimsArgs, parserArgs. rewrite !flat_map_app, !map_app.
    cbn [flat_map].
    destruct k as [c | q]; cbn [requestOptionOf map app];
      unfold WithClaims, WithParser; cbn [req extractor claims parser];
      rewrite ?app_nil_r, ?List.last_last; reflexivity.
Qed.

(** X14.  [ParseFromRequest] with options built by [WithClaims] and
    [WithParser]: the extractor given in the call is run once, on the
    request given in the call; on its error the result is no token and
    that error; otherwise the parser's [ParseWithClaims] is run, in the
    world the extractor left, with the extracted string, the key
    function, the parser of the last [WithParser] (the zero parser when
    there is none) and the claims of the last [WithClaims] (an empty
    [MapClaims] when there is none). *)
Theorem ParseFromRequest_options
    (ParseWithClaims : jwt.Parser -> string -> jwt.Claims -> jwt.Keyfunc ->
                       jwt.Go (option jwt.Token * option error))
    (r : Request) (e : Extractor) (keyFunc : jwt.Keyfunc)
    (ks : list requestOptionKind) (w : W) :
  ParseFromRequest ParseWithClaims r e keyFunc (map requestOptionOf ks) w =
  match snd (fst (ExtractToken e r w)) with
  | Some err => ((None, Some err), snd (ExtractToken e r w))
  | None =>
      ParseWithClaims (List.last (parserArgs ks) zeroParser)
        (fst (fst (ExtractToken e r w)))
        (List.last (claimsArgs ks) (jwt.MapClaims ∅)) keyFunc
        (snd (ExtractToken e r w))
  end.
Proof.
  unfold ParseFromRequest, bind. rewrite fold_requestOptions.
  cbn [req extractor claims parser].
  rewrite (last_map_Some (claimsArgs ks)).
  change (match List.last (map Some (parserArgs ks)) None with
          | Some q => q
          | None => {| jwt.ValidMethods := None; jwt.UseJSONNumber := false;
                       jwt.SkipClaimsValidation := false |}
          end) with
    (match List.last (map Some (parserArgs ks)) None with
     | Some q => q | None => zeroParser end).
  rewrite (last_map_Some (parserArgs ks)).
  destruct (ExtractToken e r w) as [[s [err|]] w']; reflexivity.
Qed.

(** X15.  [ParseFromRequestWithClaims] runs the extractor and, when it
    gives a string, the zero parser's [ParseWithClaims] on that string
    with the claims given: no list of allowed methods is in force and
    claims validation is not skipped. *)
Theorem ParseFromRequestWithClaims_zero_parser
    (ParseWithClaims : jwt.Parser -> string -> jwt.Claims -> jwt.Keyfunc ->
                       jwt.Go (option jwt.Token * option error))
    (r : Request) (e : Extractor) (c : jwt.Claims) (keyFunc : jwt.Keyfunc) (w : W) :
  ParseFromRequestWithClaims ParseWithClaims r e c keyFunc w =
  match snd (fst (ExtractToken e r w)) with
  | Some err => ((None, Some err), snd (ExtractToken e r w))
  | None =>
      ParseWithClaims
        {| jwt.ValidMethods := None; jwt.UseJSONNumber := false;
           jwt.SkipClaimsValidation := false |}
        (fst (fst (ExtractToken e r w))) c keyFunc (snd (ExtractToken e r w))
  end.
Proof.
  unfold ParseFromRequestWithClaims, ParseFromRequest, bind, WithClaims.
  cbn [fold_left req extractor claims parser].
  destruct (ExtractToken e r w) as [[s [err|]] w']; reflexivity.
Qed.

End request_facts.

(** * Properties of the parser *)

Section parser_facts.
Context {P : Platform}.
Import jwt.

Lemma ValidMethods_WithValidMethods (methods : option (list string)) (p : Parser) :
  ValidMethods (WithValidMethods methods p) = methods.
Proof. reflexivity. Qed.

Lemma methodAllowed_false (p : Parser) (methods : list string) (alg : string) :
  ValidMethods p = Some methods -> ~ In alg methods -> methodAllowed p alg = false.
Proof.
  intros Hp Hn. unfold methodAllowed. rewrite Hp.
  destruct (existsb (String.eqb alg) methods) eqn:He; [|reflexivity].
  apply existsb_exists in He as (m & Hin & Heq).
  apply String.eqb_eq in Heq. subst. contradiction.
Qed.

Lemma methodAllowed_true (p : Parser) (methods : list string) (alg : string) :
  ValidMethods p = Some methods -> methodAllowed p alg = true -> In alg methods.
Proof.
  intros Hp. unfold methodAllowed. rewrite Hp. intros He.
  apply existsb_exists in He as (m & Hin & Heq).
  apply String.eqb_eq in Heq. subst. exact Hin.
Qed.

(** With an allow-list configured, a parse that ends without error
    returns a token marked valid whose header names an algorithm of the
    list. *)
Lemma parse_success_alg_allowed (pkg : Package) (p : Parser) (tokenString : string)
    (claims : Claims) (keyFunc : Keyfunc) (w : W) (methods : list string) :
  ValidMethods p = Some methods ->
  snd (fst (Parser_ParseWithClaims pkg p tokenString claims keyFunc w)) = None ->
  exists (token : Token) (alg : string),
    fst (fst (Parser_ParseWithClaims pkg p tokenString claims keyFunc w)) = Some token /\
    Header token !! "alg" = Some (VString alg) /\ In alg methods /\ Valid token = true.
Proof.
  intros Hp. unfold Parser_ParseWithClaims.
  destruct (decodeToken pkg p tokenString claims) as [[[[header c] sb] si]|];
    [|discriminate].
  destruct (header !! "alg") as [[| | |alg| |]|] eqn:Ha; try discriminate.
  destruct (methodAllowed p alg) eqn:Hm; cbn [negb]; [|discriminate].
  apply (methodAllowed_true p methods alg Hp) in Hm.
  destruct (GetSigningMethod pkg alg) as [method|]; [|discriminate].
  unfold bind, ret.
  destruct (keyFunc _ w) as [[key [e|]] w1]; [discriminate|].
  destruct (Verify method si sb key w1) as [[e|] w2]; [discriminate|].
  destruct (SkipClaimsValidation p).
  - intros _. do 2 eexists. cbn [fst snd Header Valid]. eauto.
  - destruct (TimeFunc pkg w2) as [now w3].
    destruct (validate c now 0); [discriminate|].
    intros _. do 2 eexists. cbn [fst snd Header Valid]. eauto.
Qed.

(** C1.  With an allow-list configured, parsing a token whose header
    names an algorithm outside the list fails with [UnverifiableError].
    The token is one that the decoding steps turn into a header and
    claims.  No verified token comes back, and the key function and the
    method's [Verify] are not consulted (the world is left as it was), so
    it does not matter whether the signature would verify.  More
    generally, whatever the token string, a parse that ends without
    error returns a token whose algorithm is in the list. *)
Theorem ParseWithClaims_alg_not_allowed (pkg : Package) (p : Parser)
    (tokenString : string) (claims : Claims) (keyFunc : Keyfunc) (w : W)
    (methods : list string) (header : gmap string value) (c : Claims)
    (sb : list byte) (signingInput alg : string) :
  ValidMethods p = Some methods ->
  decodeToken pkg p tokenString claims = Some (header, c, sb, signingInput) ->
  header !! "alg" = Some (VString alg) ->
  ~ In alg methods ->
  snd (fst (Parser_ParseWithClaims pkg p tokenString claims keyFunc w))
    = Some UnverifiableError /\
  (forall token,
     fst (fst (Parser_ParseWithClaims pkg p tokenString claims keyFunc w)) = Some token ->
     Valid token = false) /\
  snd (Parser_ParseWithClaims pkg p tokenString claims keyFunc w) = w /\
  (forall (anyString : string) (w0 : W),
     snd (fst (Parser_ParseWithClaims pkg p anyString claims keyFunc w0)) = None ->
     exists (token : Token) (alg0 : string),
       fst (fst (Parser_ParseWithClaims pkg p anyString claims keyFunc w0)) = Some token /\
       Header token !! "alg" = Some (VString alg0) /\ In alg0 methods /\
       Valid token = true).
Proof.
  intros Hp Hd Ha Hn.
  split; [|split; [|split]].
  4: { intros anyString w0. apply parse_success_alg_allowed. exact Hp. }
  all: unfold Parser_ParseWithClaims; rewrite Hd, Ha;
    rewrite (methodAllowed_false p methods alg Hp Hn); cbn [negb];
    unfold ret; cbn [fst snd]; try reflexivity.
  destruct (GetSigningMethod pkg alg); intros token [= <-]. reflexivity.
Qed.

(** ** Parser options in sequence *)

Lemma existsb_snoc {A : Type} (f : A -> bool) (l : list A) (x : A) :
  existsb f (l ++ [x]) = existsb f l || f x.
Proof. rewrite existsb_app. cbn [existsb]. rewrite orb_false_r. reflexivity. Qed.

(** X13.  The options of parser_option.go applied in sequence to a
    parser: the list of allowed methods is the argument of the last
    [WithValidMethods], the parser's own when there is none; JSON numbers
    are on when they were on or [WithJSONNumber] is among the options;
    claims validation is skipped when it was or
    [WithoutClaimsValidation] is among them.  No option undoes another's
    flag. *)
Theorem parser_options_compose (ks : list parserOptionKind) (p : Parser) :
  ValidMethods (applyParserOptions (map parserOptionOf ks) p)
    = List.last (validMethodsArgs ks) (ValidMethods p) /\
  UseJSONNumber (applyParserOptions (map parserOptionOf ks) p)
    = UseJSONNumber p || existsb isJSONNumberOn ks /\
  SkipClaimsValidation (applyParserOptions (map parserOptionOf ks) p)
    = SkipClaimsValidation p || existsb isClaimsValidationOff ks.
Proof.
  unfold applyParserOptions.
  induction ks as [|k ks IH] using rev_ind.
  - cbn. rewrite !orb_false_r. auto.
  - rewrite map_app, fold_left_app. cbn [map fold_left].
    destruct IH as (IH1 & IH2 & IH3). unfold validMethodsArgs.
    rewrite flat_map_app, !existsb_snoc. cbn [flat_map].
    destruct k; cbn [parserOptionOf WithValidMethods WithJSONNumber WithoutClaimsValidation
                     ValidMethods UseJSONNumber SkipClaimsValidation
                     isJSONNumberOn isClaimsValidationOff app];
      rewrite ?app_nil_r, ?List.last_last, ?orb_false_r, ?orb_true_r, ?IH2, ?IH3;
      auto.
Qed.

End parser_facts.

(** * The theorems at work on the small platform *)

Import demo.

(** The unsecured token is accepted when no allow-list is given, and
    refused with [UnverifiableError] once [WithValidMethods] gives the
    list [["HS256"]], before the key function or [Verify] are called. *)
Lemma ParseWithClaims_alg_not_allowed_witness :
  snd (fst (jwt.ParseWithClaims pkg unsecuredToken (jwt.MapClaims ∅) keyFunc [] []))
    = None /\
  snd (fst (jwt.ParseWithClaims pkg unsecuredToken (jwt.MapClaims ∅) keyFunc
              [jwt.WithValidMethods (Some ["HS256"]); jwt.WithJSONNumber] []))
    = Some UnverifiableError /\
  snd (jwt.ParseWithClaims pkg unsecuredToken (jwt.MapClaims ∅) keyFunc
         [jwt.WithValidMethods (Some ["HS256"]); jwt.WithJSONNumber] []) = [].
Proof.
  split; [vm_compute; reflexivity|].
  edestruct (ParseWithClaims_alg_not_allowed pkg
               (jwt.NewParser [jwt.WithValidMethods (Some ["HS256"]); jwt.WithJSONNumber])
               unsecuredToken (jwt.MapClaims ∅) keyFunc [] ["HS256"])
    as (H1 & _ & H2 & _).
  - reflexivity.
  - vm_compute. reflexivity.
  - instantiate (1 := "none"). vm_compute. reflexivity.
  - intros [H | []]. discriminate H.
  - split; [exact H1 | exact H2].
Defined.

(** A token for the keyed method with empty claims, signed with
    [secret]. *)
Lemma SignedString_ok_witness :
  fst (jwt.SignedString "secret" (jwt.NewWithClaims keyed (jwt.MapClaims ∅), [])) =
    ("eyJhbGciOiJIUzI1NiIsInR5cCI6IkpXVCJ9.e30.c2VjcmV0ZXlKaGJHY2lPaUpJVXpJMU5pSXNJblI1Y0NJNklrcFhWQ0o5LmUzMA",
     None) /\
  snd (jwt.SignedString "secret" (jwt.NewWithClaims keyed (jwt.MapClaims ∅), [])) =
    (jwt.NewWithClaims keyed (jwt.MapClaims ∅), ["Sign"]).
Proof.
  edestruct (SignedString_ok (jwt.NewWithClaims keyed (jwt.MapClaims ∅)) "secret" [])
    as [_ H].
  - vm_compute. reflexivity.
  - vm_compute. reflexivity.
  - vm_compute. reflexivity.
  - split; [exact (f_equal fst H) | exact (f_equal snd H)].
Defined.

(** Claims that expired long ago are signed all the same. *)
Lemma SignedString_does_not_validate_witness :
  jwt.validate (jwt.MapClaims {["exp" := VNumber 1]}) 1000 0
    = Some (ClaimsInvalidError ["expired"]) /\
  fst (jwt.SignedString "secret"
         (jwt.NewWithClaims keyed (jwt.MapClaims {["exp" := VNumber 1]}), [])) =
    ("eyJhbGciOiJIUzI1NiIsInR5cCI6IkpXVCJ9.eyJleHAiOjF9.c2VjcmV0ZXlKaGJHY2lPaUpJVXpJMU5pSXNJblI1Y0NJNklrcFhWQ0o5LmV5SmxlSEFpT2pGOQ",
     None).
Proof.
  split; [vm_compute; reflexivity|].
  destruct (SignedString_does_not_validate
              (jwt.NewWithClaims keyed (jwt.MapClaims {["exp" := VNumber 1]}))
              "secret" []) as [H _].
  eapply eq_trans; [eapply (H 1000 0)|].
  - vm_compute. discriminate.
  - vm_compute. reflexivity.
  - vm_compute. reflexivity.
  - vm_compute. reflexivity.
  - reflexivity.
Defined.

(** A request without token: the extractor's error comes back, and the
    log of calls holds the extraction only. *)
Lemma ParseFromRequest_extract_error_witness :
  request.ParseFromRequest loggedParse None fromRequest keyFunc
    [request.WithClaims (jwt.MapClaims ∅); request.WithParser (jwt.NewParser [])] [] =
    ((None, Some (OtherError "no token present in request")), ["ExtractToken"]).
Proof.
  eapply (ParseFromRequest_extract_error loggedParse None fromRequest keyFunc).
  - repeat constructor.
  - reflexivity.
Defined.

(** [YQ==] and [YQ], the padded and unpadded encodings of one byte. *)
Lemma DecodeSegment_padding_modes_witness :
  (snd (jwt.DecodeSegment false "YQ==") <> None /\
   snd (jwt.DecodeSegment true "YQ==") = None) /\
  snd (jwt.DecodeSegment false "YQ") = None /\
  snd (jwt.DecodeSegment true "YQ") = None.
Proof.
  split.
  - apply (DecodeSegment_padding_modes "YQ==").
    exists "YQ"%string, "=="%string. repeat split; try reflexivity; try discriminate.
    right; left. split; reflexivity.
  - assert (unpaddedSegment "YQ") as Hu by (split; [reflexivity | discriminate]).
    split; apply (DecodeSegment_padding_modes "YQ"); exact Hu.
Defined.

(** [abc] and [d]: the first part has a whole number of blocks. *)
Lemma EncodeSegment_app_witness :
  jwt.EncodeSegment (["a"; "b"; "c"]%byte ++ ["d"]%byte)%list
    = (jwt.EncodeSegment ["a"; "b"; "c"]%byte ++ jwt.EncodeSegment ["d"]%byte)%string.
Proof. apply (EncodeSegment_app ["a"; "b"; "c"]%byte ["d"]%byte). reflexivity. Defined.

(** [YQ=], one of the two padding characters of [YQ==] present. *)
Lemma DecodeSegment_legacy_completes_witness :
  jwt.DecodeSegment true "YQ=" = jwt.DecodeSegment false "YQ".
Proof.
  apply (DecodeSegment_legacy_completes "YQ" "==" "=" "=").
  - split; [reflexivity | discriminate].
  - right; left. split; reflexivity.
  - reflexivity.
Defined.

(** [YQ] has two characters and is accepted. *)
Lemma DecodeSegment_accepts_iff_witness :
  snd (jwt.DecodeSegment false "YQ") = None <->
  Z.of_nat (String.length "YQ") mod 4 <> 1.
Proof. apply (DecodeSegment_accepts_iff false "YQ"). reflexivity. Defined.

(** The six characters of [YWJjZA] decode to four bytes. *)
Lemma DecodeSegment_length_witness :
  Z.of_nat (length (fst (jwt.DecodeSegment true "YWJjZA")))
    = Z.of_nat (String.length "YWJjZA") * 6 / 8.
Proof.
  apply (DecodeSegment_length true "YWJjZA").
  split; [reflexivity | discriminate].
Defined.

(** [+], of the standard alphabet, is not of the URL alphabet. *)
Lemma DecodeSegment_foreign_character_witness :
  snd (jwt.DecodeSegment false "Y+Q") <> None /\
  snd (jwt.DecodeSegment true "Y+Q") <> None.
Proof.
  destruct (DecodeSegment_foreign_character "Y+Q" "+"%char) as [H1 H2].
  - right; left. reflexivity.
  - reflexivity.
  - reflexivity.
  - split; [exact H1 | apply H2; discriminate].
Defined.

(** [YQ] is canonical, [YR] is not: both decode to the byte [a]. *)
Lemma EncodeSegment_DecodeSegment_witness :
  jwt.EncodeSegment (fst (jwt.DecodeSegment false "YQ")) = "YQ" /\
  jwt.EncodeSegment (fst (jwt.DecodeSegment false "YR")) <> "YR".
Proof.
  split.
  - apply (EncodeSegment_DecodeSegment false "YQ").
    + split; [reflexivity | discriminate].
    + vm_compute. reflexivity.
  - intros H. apply (EncodeSegment_DecodeSegment false "YR") in H.
    + vm_compute in H. discriminate H.
    + split; [reflexivity | discriminate].
Defined.

(** Claims with a nested value, which the encoder refuses. *)
Lemma SignedString_serialization_error_witness :
  jwt.SignedString "secret"
    (jwt.NewWithClaims keyed (jwt.MapClaims {["aud" := VArray []]}), []) =
  ((EmptyString, Some (OtherError "json: unsupported value")),
   (jwt.NewWithClaims keyed (jwt.MapClaims {["aud" := VArray []]}), [])).
Proof.
  apply (SignedString_serialization_error
           (jwt.NewWithClaims keyed (jwt.MapClaims {["aud" := VArray []]})) "secret" []).
  right. split; vm_compute; reflexivity.
Defined.

(** The guarded method with the empty key. *)
Lemma SignedString_sign_error_witness :
  jwt.SignedString EmptyString (jwt.NewWithClaims guarded (jwt.MapClaims ∅), []) =
  ((EmptyString, Some SignError),
   (jwt.NewWithClaims guarded (jwt.MapClaims ∅), ["Sign"])).
Proof.
  eapply (SignedString_sign_error (jwt.NewWithClaims guarded (jwt.MapClaims ∅))
            EmptyString [] ["Sign"]).
  - vm_compute. reflexivity.
  - vm_compute. reflexivity.
  - vm_compute. reflexivity.
Defined.

(** The three segments of a token of the keyed method. *)
Lemma SignedString_segments_witness :
  jwt.Split (fst (fst (jwt.SignedString "secret"
                         (jwt.NewWithClaims keyed (jwt.MapClaims ∅), []))))
            "."%char
  = ["eyJhbGciOiJIUzI1NiIsInR5cCI6IkpXVCJ9"; "e30";
     "c2VjcmV0ZXlKaGJHY2lPaUpJVXpJMU5pSXNJblI1Y0NJNklrcFhWQ0o5LmUzMA"].
Proof.
  edestruct (SignedString_segments (jwt.NewWithClaims keyed (jwt.MapClaims ∅))
               "secret" []) as (_ & H & _).
  - vm_compute. reflexivity.
  - vm_compute. reflexivity.
  - vm_compute. reflexivity.
  - exact H.
Defined.
